(** * cloud-datastore-interceptor: cache and query-rewriting interceptors

    A shallow embedding of
    - [cache/cache.go]            (the caching unary client interceptor),
    - [transform/transform.go]    (the query-to-lookup rewriting interceptor,
                                   in its two variants),
    - [cache/memory/memory.go], [cache/redis] (the canonical key string
      [keystr], in its two variants, and the in-memory cache),
    together with the properties of the interception and consistency logic. *)

From Stdlib Require Import ZArith List Ascii String DecimalString DecimalZ DecimalPos Lia.
From stdpp Require Import base option list strings gmap.

Local Open Scope Z_scope.
Local Open Scope string_scope.
Local Open Scope list_scope.

(** ** Data model: the messages of [datastorepb] the interceptors touch

    Only the fields the interceptors read or write are kept. A Go pointer
    that may be nil is an [option]; a slice whose nil-ness the code tests is
    an [option (list _)], any other slice is a [list]. *)

Definition bytes := list Byte.byte.

Record PartitionId := mkPartitionId {
  PartitionId_ProjectId : string;
  NamespaceId : string }.

(** The [id_type] oneof of a path element. *)
Inductive Key_PathElement_IdType :=
| Key_PathElement_Id (id : Z)
| Key_PathElement_Name (name : string).

Record Key_PathElement := mkPathElement {
  Kind : string;
  IdType : option Key_PathElement_IdType }.

Record Key := mkKey {
  Key_PartitionId : option PartitionId;
  Path : list Key_PathElement }.

(** [*datastorepb.Key]: a key pointer, possibly nil. *)
Definition KeyPtr := option Key.

(** Property values are opaque to the interceptors; they are kept as
    strings. *)
Record Entity := mkEntity {
  Entity_Key : KeyPtr;
  Properties : list (string * string) }.

Record EntityResult := mkEntityResult {
  EntityResult_Entity : option Entity;
  Version : Z;
  Cursor : bytes }.

Inductive ReadOptions_ConsistencyType :=
| ReadOptions_ReadConsistency (c : Z)
| ReadOptions_Transaction (tx : option bytes).

Record ReadOptions := mkReadOptions {
  ConsistencyType : option ReadOptions_ConsistencyType }.

Record LookupRequest := mkLookupRequest {
  LookupRequest_ProjectId : string;
  LookupRequest_ReadOptions : option ReadOptions;
  Keys : list KeyPtr }.

Record LookupResponse := mkLookupResponse {
  Found : option (list EntityResult);
  Missing : list EntityResult;
  Deferred : list KeyPtr }.

Inductive Mutation_Operation :=
| Mutation_Insert (e : option Entity)
| Mutation_Update (e : option Entity)
| Mutation_Upsert (e : option Entity)
| Mutation_Delete (k : KeyPtr).

Record Mutation := mkMutation {
  Operation : option Mutation_Operation }.

Inductive CommitRequest_Mode :=
| MODE_UNSPECIFIED | TRANSACTIONAL | NON_TRANSACTIONAL.

Record CommitRequest := mkCommitRequest {
  CommitRequest_ProjectId : string;
  Mode : CommitRequest_Mode;
  TransactionSelector : option bytes;
  Mutations : list Mutation }.

Record CommitResponse := mkCommitResponse {
  IndexUpdates : Z }.

Record Projection := mkProjection {
  Property : string }.

Record Query := mkQuery {
  Query_Projection : option (list Projection);
  Query_Kind : list string;
  Limit : option Z;
  Offset : Z }.

Inductive RunQueryRequest_QueryType :=
| RunQueryRequest_Query (q : option Query)
| RunQueryRequest_GqlQuery (gql : string).

Record RunQueryRequest := mkRunQueryRequest {
  RunQueryRequest_ProjectId : string;
  RunQueryRequest_ReadOptions : option ReadOptions;
  QueryType : option RunQueryRequest_QueryType }.

Inductive EntityResult_ResultType :=
| RESULT_TYPE_UNSPECIFIED | FULL | PROJECTION | KEY_ONLY.

Record QueryResultBatch := mkQueryResultBatch {
  EntityResultType : EntityResult_ResultType;
  EntityResults : list EntityResult }.

Record RunQueryResponse := mkRunQueryResponse {
  Batch : option QueryResultBatch }.

(** The nil-safe getters of the generated code. *)
Definition GetNamespaceId (p : option PartitionId) : string :=
  match p with Some p => NamespaceId p | None => EmptyString end.

Definition GetPartitionId (key : KeyPtr) : option PartitionId :=
  match key with Some k => Key_PartitionId k | None => None end.

Definition GetPath (key : KeyPtr) : list Key_PathElement :=
  match key with Some k => Path k | None => [] end.

Definition GetTransaction (ro : option ReadOptions) : option bytes :=
  match ro with
  | Some {| ConsistencyType := Some (ReadOptions_Transaction tx) |} => tx
  | _ => None
  end.

Definition GetKey (e : option Entity) : KeyPtr :=
  match e with Some e => Entity_Key e | None => None end.

Definition GetFound (out : LookupResponse) : option (list EntityResult) :=
  Found out.

Definition GetQuery (r : RunQueryRequest) : option Query :=
  match QueryType r with
  | Some (RunQueryRequest_Query q) => q
  | _ => None
  end.

Definition GetProjection (q : Query) : option (list Projection) :=
  Query_Projection q.

Definition GetEntityResults (b : option QueryResultBatch) : list EntityResult :=
  match b with Some b => EntityResults b | None => [] end.

(** [len] of a slice that may be nil. *)
Definition slice_len {A} (s : option (list A)) : nat :=
  match s with Some l => length l | None => 0%nat end.

(** ** [strconv]: the two formatting functions [keystr] calls *)

Module strconv.

(** [strconv.FormatInt(i, 10)]. *)
Definition FormatInt (i : Z) : string :=
  NilEmpty.string_of_int (Z.to_int i).

Definition lowerhex (n : nat) : ascii :=
  match n with
  | 0 => "0" | 1 => "1" | 2 => "2" | 3 => "3" | 4 => "4" | 5 => "5"
  | 6 => "6" | 7 => "7" | 8 => "8" | 9 => "9" | 10 => "a" | 11 => "b"
  | 12 => "c" | 13 => "d" | 14 => "e" | _ => "f"
  end%nat%char.

Definition backslash : ascii := ascii_of_nat 92.
Definition dquote : ascii := ascii_of_nat 34.

(** What [strconv.Quote] appends for one byte of its argument. Names are
    modelled as byte strings: a printable ASCII byte is copied, the quote
    and the backslash are escaped, the control characters with a short
    escape get it, and every other byte is written in the two-digit
    hexadecimal form (which is what Go writes for a control byte and for a
    byte that is not part of a valid UTF-8 sequence). On a name of ASCII
    bytes this is the string Go writes. A character of several bytes Go
    copies when it is printable and writes with a [\u] escape otherwise,
    which this byte by byte form does not follow; what is proved of
    quoted names below uses that the quoted form starts with a double
    quote and can be read back up to its closing quote, which holds of
    both. *)
Definition escape (c : ascii) : string :=
  let n := nat_of_ascii c in
  if (n =? 34)%nat then String backslash (String dquote EmptyString)
  else if (n =? 92)%nat then String backslash (String backslash EmptyString)
  else if ((32 <=? n) && (n <=? 126))%nat then String c EmptyString
  else if (n =? 7)%nat then String backslash "a"
  else if (n =? 8)%nat then String backslash "b"
  else if (n =? 12)%nat then String backslash "f"
  else if (n =? 10)%nat then String backslash "n"
  else if (n =? 13)%nat then String backslash "r"
  else if (n =? 9)%nat then String backslash "t"
  else if (n =? 11)%nat then String backslash "v"
  else String backslash
         (String "x" (String (lowerhex (n / 16))
                             (String (lowerhex (n mod 16)) EmptyString))).

Fixpoint quoted_body (s : string) : string :=
  match s with
  | EmptyString => EmptyString
  | String c s' => escape c +:+ quoted_body s'
  end.

(** [strconv.Quote(s)]. *)
Definition Quote (s : string) : string :=
  String dquote (quoted_body s +:+ String dquote EmptyString).

(** The value of a lower-case hexadecimal digit. *)
Definition hexval (c : ascii) : option nat :=
  let n := nat_of_ascii c in
  if ((48 <=? n) && (n <=? 57))%nat then Some (n - 48)%nat
  else if ((97 <=? n) && (n <=? 102))%nat then Some (n - 87)%nat
  else None.

(** Reading back what [escape] wrote at the head of a string; the closing
    quote is not the image of any byte. *)
Definition unescape (s : string) : option (ascii * string) :=
  match s with
  | EmptyString => None
  | String c s' =>
    if Ascii.eqb c dquote then None
    else if Ascii.eqb c backslash then
      match s' with
      | EmptyString => None
      | String d s'' =>
        if Ascii.eqb d "x" then
          match s'' with
          | String h (String l rest) =>
            match hexval h, hexval l with
            | Some a, Some b => Some (ascii_of_nat (16 * a + b), rest)
            | _, _ => None
            end
          | _ => None
          end
        else if Ascii.eqb d "a" then Some (ascii_of_nat 7, s'')
        else if Ascii.eqb d "b" then Some (ascii_of_nat 8, s'')
        else if Ascii.eqb d "f" then Some (ascii_of_nat 12, s'')
        else if Ascii.eqb d "n" then Some (ascii_of_nat 10, s'')
        else if Ascii.eqb d "r" then Some (ascii_of_nat 13, s'')
        else if Ascii.eqb d "t" then Some (ascii_of_nat 9, s'')
        else if Ascii.eqb d "v" then Some (ascii_of_nat 11, s'')
        else if Ascii.eqb d dquote then Some (dquote, s'')
        else if Ascii.eqb d backslash then Some (backslash, s'')
        else None
      end
    else Some (c, s')
  end.

End strconv.

(** ** [strings.Join] *)

Module strings.

Fixpoint Join (elems : list string) (sep : string) : string :=
  match elems with
  | [] => EmptyString
  | [e] => e
  | e :: elems' => e +:+ sep +:+ Join elems' sep
  end.

End strings.

(** ** gRPC unary calls

    A call is a method with a request object and a reply object of the
    types the generated client uses for that method; the interceptors
    dispatch on the method name. [OtherMethod name] is a method with any
    name other than the three the interceptors look for. *)

Inductive Method :=
| Lookup
| Commit
| RunQuery
| OtherMethod (name : string).

Definition method_name (m : Method) : string :=
  match m with
  | Lookup => "/google.datastore.v1.Datastore/Lookup"
  | Commit => "/google.datastore.v1.Datastore/Commit"
  | RunQuery => "/google.datastore.v1.Datastore/RunQuery"
  | OtherMethod name => name
  end.

Definition Req (m : Method) : Type :=
  match m with
  | Lookup => LookupRequest
  | Commit => CommitRequest
  | RunQuery => RunQueryRequest
  | OtherMethod _ => bytes
  end.

Definition Rep (m : Method) : Type :=
  match m with
  | Lookup => LookupResponse
  | Commit => CommitResponse
  | RunQuery => RunQueryResponse
  | OtherMethod _ => bytes
  end.

Definition error := string.

(** [grpc.UnaryInvoker]: the rest of the call chain. It reads the request,
    fills in the reply object and returns an error or nil; [R] is the state
    on its side (the remote service). *)
Definition UnaryInvoker (R : Type) : Type :=
  forall m : Method, Req m -> Rep m -> R -> option error * Rep m * R.

(** What a call of the interceptor does to its collaborators, in order. *)
Inductive Event :=
| InvokeLookup (req : LookupRequest)
| InvokeCommit (req : CommitRequest)
| InvokeRunQuery (req : RunQueryRequest)
| InvokeOther (name : string) (req : bytes)
| CacherGetMulti (keys : list KeyPtr)
| CacherSetMulti (keys : list KeyPtr) (values : list bytes)
| CacherDeleteMulti (keys : list KeyPtr).

Definition invoke_event (m : Method) : Req m -> Event :=
  match m as m0 return Req m0 -> Event with
  | Lookup => InvokeLookup
  | Commit => InvokeCommit
  | RunQuery => InvokeRunQuery
  | OtherMethod name => InvokeOther name
  end.

Definition is_invoke (e : Event) : bool :=
  match e with
  | InvokeLookup _ | InvokeCommit _ | InvokeRunQuery _ | InvokeOther _ _ => true
  | _ => false
  end.

Definition is_cacher (e : Event) : bool := negb (is_invoke e).

(** How a call ends: it returns an error or nil, or it panics. *)
Inductive Outcome :=
| Returned (err : option error)
| Panicked.

(** ** Package [cache] *)

(** [cache.Cacher], over the state [C] of the implementation. *)
Class Cacher (C : Type) := {
  GetMulti : C -> list KeyPtr -> list (option bytes) * C;
  SetMulti : C -> list KeyPtr -> list bytes -> C;
  DeleteMulti : C -> list KeyPtr -> option error * C }.

(** [proto.Marshal] and [proto.Unmarshal] on an [EntityResult]; [None] is
    a non-nil error. *)
Class Proto := {
  Marshal : EntityResult -> option bytes;
  Unmarshal : bytes -> option EntityResult }.

Record World (C R : Type) := mkWorld {
  cacher : C;
  remote : R;
  events : list Event }.
Arguments mkWorld {C R} _ _ _.
Arguments cacher {C R} _.
Arguments remote {C R} _.
Arguments events {C R} _.

Definition with_Keys (keys : list KeyPtr) (r : LookupRequest) : LookupRequest :=
  mkLookupRequest (LookupRequest_ProjectId r) (LookupRequest_ReadOptions r) keys.

Definition with_Found (found : option (list EntityResult)) (r : LookupResponse)
  : LookupResponse :=
  mkLookupResponse found (Missing r) (Deferred r).

Section cache.
Context {C : Type} `{!Cacher C} `{!Proto} {R : Type} (invoker : UnaryInvoker R).

Definition invoke (m : Method) (req : Req m) (reply : Rep m) (w : World C R)
  : option error * Rep m * World C R :=
  let '(err, reply', r') := invoker m req reply (remote w) in
  (err, reply', mkWorld (cacher w) r' (events w ++ [invoke_event m req])).

Definition getMulti (keys : list KeyPtr) (w : World C R)
  : list (option bytes) * World C R :=
  let '(values, c') := GetMulti (cacher w) keys in
  (values, mkWorld c' (remote w) (events w ++ [CacherGetMulti keys])).

Definition setMulti (keys : list KeyPtr) (values : list bytes) (w : World C R)
  : World C R :=
  mkWorld (SetMulti (cacher w) keys values) (remote w)
          (events w ++ [CacherSetMulti keys values]).

Definition deleteMulti (keys : list KeyPtr) (w : World C R)
  : option error * World C R :=
  let '(err, c') := DeleteMulti (cacher w) keys in
  (err, mkWorld c' (remote w) (events w ++ [CacherDeleteMulti keys])).

(** The loop over [cached]: entry [i] goes to [found] when it is there
    and deserializes, and [keys[i]] goes to [missing] otherwise. [None]
    is the index-out-of-range panic of [keys[i]]. *)
Fixpoint scan_cached (keys : list KeyPtr) (cached : list (option bytes)) (i : nat)
    (found : list EntityResult) (missing : list KeyPtr)
  : option (list EntityResult * list KeyPtr) :=
  match cached with
  | [] => Some (found, missing)
  | v :: cached' =>
    match v with
    | None =>
      match keys !! i with
      | Some k => scan_cached keys cached' (S i) found (missing ++ [k])
      | None => None
      end
    | Some b =>
      match Unmarshal b with
      | None =>
        match keys !! i with
        | Some k => scan_cached keys cached' (S i) found (missing ++ [k])
        | None => None
        end
      | Some e => scan_cached keys cached' (S i) (found ++ [e]) missing
      end
    end
  end.

(** The loop over [got] that collects what to save. [None] is the nil
    dereference of [v.Entity.Key]. *)
Fixpoint save_cache (got : list EntityResult)
    (skeys : list KeyPtr) (values : list bytes)
  : option (list KeyPtr * list bytes) :=
  match got with
  | [] => Some (skeys, values)
  | v :: got' =>
    match Marshal v with
    | Some b =>
      match EntityResult_Entity v with
      | Some e => save_cache got' (skeys ++ [Entity_Key e]) (values ++ [b])
      | None => None
      end
    | None => save_cache got' skeys values
    end
  end.

(** The loop over the mutations of a commit. [None] is the nil
    dereference of [op.Update.Key] or [op.Upsert.Key]. *)
Fixpoint mutation_keys (ms : list Mutation) (keys : list KeyPtr)
  : option (list KeyPtr) :=
  match ms with
  | [] => Some keys
  | v :: ms' =>
    match Operation v with
    | Some (Mutation_Update (Some e)) => mutation_keys ms' (keys ++ [Entity_Key e])
    | Some (Mutation_Update None) => None
    | Some (Mutation_Upsert (Some e)) => mutation_keys ms' (keys ++ [Entity_Key e])
    | Some (Mutation_Upsert None) => None
    | Some (Mutation_Delete k) => mutation_keys ms' (keys ++ [k])
    | _ => mutation_keys ms' keys
    end
  end.

(** The result of an intercepted call: how it ended, the request and the
    reply objects as the caller finds them, and the collaborators. *)
Definition Result (m : Method) : Type :=
  (Outcome * Req m * Rep m * World C R)%type.

Definition forward (m : Method) (req : Req m) (reply : Rep m) (w : World C R)
  : Result m :=
  let '(err, reply', w') := invoke m req reply w in
  (Returned err, req, reply', w').

(** [case "/google.datastore.v1.Datastore/Lookup"]. *)
Definition intercept_Lookup (in_ : LookupRequest) (out : LookupResponse)
    (w : World C R) : Result Lookup :=
  match GetTransaction (LookupRequest_ReadOptions in_) with
  | Some _ => forward Lookup in_ out w
  | None =>
    let keys := Keys in_ in
    let '(cached, w1) := getMulti keys w in
    match scan_cached keys cached 0 [] [] with
    | None => (Panicked, in_, out, w1)
    | Some (found, missing) =>
      if (length keys =? length found)%nat then
        (Returned None, in_, with_Found (Some found) out, w1)
      else
        let missing := if (length cached =? 0)%nat then keys else missing in
        let in1 := with_Keys missing in_ in
        let '(err, out1, w2) := invoke Lookup in1 out w1 in
        match err with
        | Some e => (Returned (Some e), in1, out1, w2)
        | None =>
          let in2 := with_Keys keys in1 in
          match GetFound out1 with
          | None => (Returned None, in2, with_Found (Some found) out1, w2)
          | Some got =>
            let out2 := with_Found (Some (got ++ found)) out1 in
            match save_cache got [] [] with
            | None => (Panicked, in2, out2, w2)
            | Some (skeys, values) =>
              (Returned None, in2, out2, setMulti skeys values w2)
            end
          end
        end
    end
  end.

(** [case "/google.datastore.v1.Datastore/Commit"]. *)
Definition intercept_Commit (in_ : CommitRequest) (out : CommitResponse)
    (w : World C R) : Result Commit :=
  let '(err, out1, w1) := invoke Commit in_ out w in
  match err with
  | Some e => (Returned (Some e), in_, out1, w1)
  | None =>
    match mutation_keys (Mutations in_) [] with
    | None => (Panicked, in_, out1, w1)
    | Some keys =>
      if (0 <? length keys)%nat then
        let '(err, w2) := deleteMulti keys w1 in
        (Returned err, in_, out1, w2)
      else (Returned None, in_, out1, w1)
    end
  end.

(** [cache.UnaryClientInterceptor(cacher)]. *)
Definition UnaryClientInterceptor (m : Method)
  : Req m -> Rep m -> World C R -> Result m :=
  match m as m0 return Req m0 -> Rep m0 -> World C R -> Result m0 with
  | Lookup => intercept_Lookup
  | Commit => intercept_Commit
  | RunQuery => forward RunQuery
  | OtherMethod name => forward (OtherMethod name)
  end.

End cache.

(** ** The canonical key string

    Both variants of [keystr] start with the namespace, or with this marker
    when the namespace is empty. *)

Definition default_namespace : string := "[default]".

(** Equal keys: the same namespace and the same path of segments. *)
Definition same_key (k1 k2 : Key) : Prop :=
  GetNamespaceId (Key_PartitionId k1) = GetNamespaceId (Key_PartitionId k2)
  /\ Path k1 = Path k2.

(** ** Package [cache/memory]: the in-process [Cacher] *)

Module memory.

Record item := mkItem {
  value : bytes;
  exp : Z }.

Record Cache := mkCache {
  expiration : Z;
  items : gmap string item }.

Definition NewCache (expiration : Z) : Cache := mkCache expiration ∅.

(** The id or name of a path element as [keystr] writes it. *)
Definition idstr (t : option Key_PathElement_IdType) : string :=
  match t with
  | Some (Key_PathElement_Id id) => strconv.FormatInt id
  | Some (Key_PathElement_Name name) => strconv.Quote name
  | None => EmptyString
  end.

(** The loop over the path, appending to the builder [b]. *)
Fixpoint write_path (b : string) (path : list Key_PathElement) : string :=
  match path with
  | [] => b
  | p :: path' => write_path (b +:+ Kind p +:+ idstr (IdType p)) path'
  end.

(** [keystr] writes the pieces one after the other ([cache/aememcache] has
    the same function, word for word). *)
Definition keystr (key : KeyPtr) : string :=
  let ns := GetNamespaceId (GetPartitionId key) in
  let b := if String.eqb ns EmptyString then default_namespace else ns in
  write_path b (GetPath key).

(** [time.Now().UnixNano()] is the argument [now]. *)
Definition GetMulti (now : Z) (c : Cache) (keys : list KeyPtr) : list (option bytes) :=
  map (fun k =>
         match items c !! keystr k with
         | Some v =>
           if ((expiration c =? 0) || (now <=? exp v))%Z then Some (value v) else None
         | None => None
         end) keys.

(** The loop of [SetMulti]; [None] is the index-out-of-range panic of
    [values[i]]. *)
Fixpoint set_items (exp : Z) (keys : list KeyPtr) (values : list bytes) (i : nat)
    (m : gmap string item) : option (gmap string item) :=
  match keys with
  | [] => Some m
  | k :: keys' =>
    match values !! i with
    | Some v => set_items exp keys' values (S i) (<[keystr k := mkItem v exp]> m)
    | None => None
    end
  end.

(** [time.Now()] is the argument [now], in nanoseconds. The expiry
    [time.Now().Add(c.expiration).UnixNano()] is the sum below as long as
    that sum is in the range of [int64]; beyond it the [int64] of the
    code wraps around, which the sum in [Z] does not follow. *)
Definition SetMulti (now : Z) (c : Cache) (keys : list KeyPtr) (values : list bytes)
  : option Cache :=
  let exp := if (expiration c =? 0)%Z then 0 else now + expiration c in
  match set_items exp keys values 0 (items c) with
  | Some m => Some (mkCache (expiration c) m)
  | None => None
  end.

(** The expiry that [SetMulti] computes at [now] is in the range of
    [int64] (none is computed when the expiration is 0). *)
Definition exp_in_range (now : Z) (c : Cache) : Prop :=
  expiration c = 0
  \/ -9223372036854775808 <= now + expiration c <= 9223372036854775807.

Definition DeleteMulti (c : Cache) (keys : list KeyPtr) : option error * Cache :=
  (None, mkCache (expiration c) (foldl (fun m k => delete (keystr k) m) (items c) keys)).

End memory.

(** [memory.Cache] as a [Cacher], read at the clock value [now]. The
    interceptor hands [SetMulti] two slices of the same length, on which
    it returns. *)
Definition memory_Cacher (now : Z) : Cacher memory.Cache := {|
  GetMulti c keys := (memory.GetMulti now c keys, c);
  SetMulti c keys values := default c (memory.SetMulti now c keys values);
  DeleteMulti c keys := memory.DeleteMulti c keys |}.

(** ** Package [cache/redis]: its [keystr] *)

Module redis.

Definition idparts (t : option Key_PathElement_IdType) : list string :=
  match t with
  | Some (Key_PathElement_Id id) => [strconv.FormatInt id]
  | Some (Key_PathElement_Name name) => [strconv.Quote name]
  | None => []
  end.

(** The loop over the path, appending to the slice [s]. *)
Fixpoint collect_path (s : list string) (path : list Key_PathElement) : list string :=
  match path with
  | [] => s
  | p :: path' => collect_path (s ++ [Kind p] ++ idparts (IdType p)) path'
  end.

(** [keystr] collects the pieces in a slice and joins them with a slash. *)
Definition keystr (key : KeyPtr) : string :=
  let ns := GetNamespaceId (GetPartitionId key) in
  let s := if String.eqb ns EmptyString then [default_namespace] else [ns] in
  strings.Join (collect_path s (GetPath key)) "/".

End redis.

(** ** Package [transform] *)

Definition with_Projection (p : option (list Projection)) (q : Query) : Query :=
  mkQuery p (Query_Kind q) (Limit q) (Offset q).

Definition with_Query (q : Query) (r : RunQueryRequest) : RunQueryRequest :=
  mkRunQueryRequest (RunQueryRequest_ProjectId r) (RunQueryRequest_ReadOptions r)
                    (Some (RunQueryRequest_Query (Some q))).

Definition with_Entity (e : option Entity) (r : EntityResult) : EntityResult :=
  mkEntityResult e (Version r) (Cursor r).

Definition keys_only : option (list Projection) := Some [mkProjection "__key__"].

Definition errLength : error := "could not lookup entities with same length as keys".

Section transform.
Context {R : Type} (invoker : UnaryInvoker R).

(** The result of a rewritten call: how it ended, the request and the
    reply objects as the caller finds them, the remote side, and the
    calls made to the invoker. *)
Definition TResult (m : Method) : Type :=
  (Outcome * Req m * Rep m * (R * list Event))%type.

Definition pass (m : Method) (req : Req m) (reply : Rep m) (r : R) : TResult m :=
  let '(err, reply', r') := invoker m req reply r in
  (Returned err, req, reply', (r', [invoke_event m req])).

(** [transform/transform.go]: the loop [for i, v := range found] writing
    [out.Batch.EntityResults[i].Entity = v.Entity]. [None] is the
    index-out-of-range panic. The lists hold results, as the lists of a
    decoded reply do: a nil element, on which [v.Entity] and the
    assignment would panic too, is not a value of [list EntityResult]. *)
Fixpoint set_results (found : list EntityResult) (i : nat)
    (results : list EntityResult) : option (list EntityResult) :=
  match found with
  | [] => Some results
  | v :: found' =>
    match results !! i with
    | Some r =>
      set_results found' (S i) (<[i := with_Entity (EntityResult_Entity v) r]> results)
    | None => None
    end
  end.

Definition lookup_request (in_ : RunQueryRequest) (result : list EntityResult)
  : LookupRequest :=
  mkLookupRequest (RunQueryRequest_ProjectId in_) (RunQueryRequest_ReadOptions in_)
                  (map (fun v => GetKey (EntityResult_Entity v)) result).

Definition empty_LookupResponse : LookupResponse := mkLookupResponse None [] [].

(** The body of the interceptor on a [RunQuery] call, after the keys-only
    query came back without error; [splice] is the "Set results" loop. *)
Definition rewrite_RunQuery
    (splice : list EntityResult -> list EntityResult -> list EntityResult
              -> option (list EntityResult))
    (in_ : RunQueryRequest) (query : Query) (out : RunQueryResponse) (r : R)
  : TResult RunQuery :=
  let in1 := with_Query (with_Projection keys_only query) in_ in
  let in2 := with_Query (with_Projection None query) in_ in
  let '(err, out1, r1) := invoker RunQuery in1 out r in
  let ev1 := [InvokeRunQuery in1] in
  match err with
  | Some e => (Returned (Some e), in2, out1, (r1, ev1))
  | None =>
    let result := GetEntityResults (Batch out1) in
    if (length result =? 0)%nat then (Returned None, in2, out1, (r1, ev1))
    else
      let getReq := lookup_request in1 result in
      let '(err, getReply, r2) := invoker Lookup getReq empty_LookupResponse r1 in
      let ev2 := ev1 ++ [InvokeLookup getReq] in
      match err with
      | Some e => (Returned (Some e), in2, out1, (r2, ev2))
      | None =>
        let found := default [] (GetFound getReply) in
        if negb (length found =? length result)%nat then
          (Returned (Some errLength), in2, out1, (r2, ev2))
        else
          match splice result found result with
          | None => (Panicked, in2, out1, (r2, ev2))
          | Some results =>
            (Returned None, in2,
             mkRunQueryResponse (Some (mkQueryResultBatch FULL results)), (r2, ev2))
          end
      end
  end.

Definition QueryToLookup
    (splice : list EntityResult -> list EntityResult -> list EntityResult
              -> option (list EntityResult)) (m : Method)
  : Req m -> Rep m -> R -> TResult m :=
  match m as m0 return Req m0 -> Rep m0 -> R -> TResult m0 with
  | RunQuery => fun in_ out r =>
    match GetQuery in_ with
    | None => pass RunQuery in_ out r
    | Some query =>
      match GetProjection query with
      | Some _ => pass RunQuery in_ out r
      | None => rewrite_RunQuery splice in_ query out r
      end
    end
  | Lookup => pass Lookup
  | Commit => pass Commit
  | OtherMethod name => pass (OtherMethod name)
  end.

End transform.

(** [transform/transform.go]: the found entities are written back slot by
    slot, in the order the Lookup reply lists them. *)
Definition QueryToLookupWithKeysOnly {R : Type} (invoker : UnaryInvoker R) (m : Method)
  : Req m -> Rep m -> R -> TResult m :=
  QueryToLookup invoker (fun _ found results => set_results found 0 results) m.

(** The variant of the same interceptor that remembers, while it collects
    the keys, which slot each key came from ([keymap[key.String()] = i]),
    and writes each found entity to the slot of its key. [Key_String] is
    the [String] method of the generated key type. *)
Section keymap.
Context (Key_String : KeyPtr -> string).

Fixpoint build_keymap (result : list EntityResult) (i : nat)
    (keymap : gmap string nat) : gmap string nat :=
  match result with
  | [] => keymap
  | v :: result' =>
    build_keymap result' (S i)
      (<[Key_String (GetKey (EntityResult_Entity v)) := i]> keymap)
  end.

(** Reading a Go map at a key it does not hold gives the zero value. *)
Definition keymap_at (keymap : gmap string nat) (k : KeyPtr) : nat :=
  default 0%nat (keymap !! Key_String k).

Fixpoint set_results_by_key (keymap : gmap string nat) (found : list EntityResult)
    (results : list EntityResult) : option (list EntityResult) :=
  match found with
  | [] => Some results
  | v :: found' =>
    let e := EntityResult_Entity v in
    let i := keymap_at keymap (GetKey e) in
    match results !! i with
    | Some r => set_results_by_key keymap found' (<[i := with_Entity e r]> results)
    | None => None
    end
  end.

Definition QueryToLookupWithKeysOnly_keymap {R : Type} (invoker : UnaryInvoker R)
    (m : Method) : Req m -> Rep m -> R -> TResult m :=
  QueryToLookup invoker
    (fun result found results =>
       set_results_by_key (build_keymap result 0 ∅) found results) m.

End keymap.

(** The key of an entity result, [v.GetEntity().GetKey()]. *)
Definition result_key (v : EntityResult) : KeyPtr := GetKey (EntityResult_Entity v).

(** ** Reading the result of an intercepted call *)

Definition outcome_of {A B W : Type} (x : Outcome * A * B * W) : Outcome := x.1.1.1.
Definition request_of {A B W : Type} (x : Outcome * A * B * W) : A := x.1.1.2.
Definition reply_of {A B W : Type} (x : Outcome * A * B * W) : B := x.1.2.
Definition world_of {A B W : Type} (x : Outcome * A * B * W) : W := x.2.

(** The calls made to the [Cacher], in order. *)
Definition cacher_calls (evs : list Event) : list Event := filter is_cacher evs.

(** The calls made to the invoker, in order. *)
Definition remote_calls (evs : list Event) : list Event := filter is_invoke evs.

(** ** What the lookup path is meant to compute *)

Section lookup_spec.
Context `{!Proto}.

(** A cached value is a hit when it is there and deserializes. *)
Definition is_hit (v : option bytes) : option EntityResult :=
  match v with Some b => Unmarshal b | None => None end.

(** The entity results served from the cache, in the order of [cached]. *)
Fixpoint cache_hits (cached : list (option bytes)) : list EntityResult :=
  match cached with
  | [] => []
  | v :: cached' =>
    match is_hit v with
    | Some e => e :: cache_hits cached'
    | None => cache_hits cached'
    end
  end.

(** The keys whose slot did not hit. *)
Fixpoint cache_misses (keys : list KeyPtr) (cached : list (option bytes))
    {struct cached} : list KeyPtr :=
  match cached, keys with
  | v :: cached', k :: keys' =>
    match is_hit v with
    | Some _ => cache_misses keys' cached'
    | None => k :: cache_misses keys' cached'
    end
  | _, _ => []
  end.

(** The key list of the reduced lookup: every key when the [Cacher]
    returned nothing at all, the missed keys otherwise. *)
Definition reduced_keys (keys : list KeyPtr) (cached : list (option bytes))
  : list KeyPtr :=
  if (length cached =? 0)%nat then keys else cache_misses keys cached.

End lookup_spec.

(** ** What the commit path is meant to invalidate *)

(** The key a mutation invalidates: the key of the entity of an Update or
    an Upsert, the key of a Delete, nothing for an Insert or an empty
    mutation. *)
Definition mutated_key (v : Mutation) : list KeyPtr :=
  match Operation v with
  | Some (Mutation_Update e) => [GetKey e]
  | Some (Mutation_Upsert e) => [GetKey e]
  | Some (Mutation_Delete k) => [k]
  | _ => []
  end.

Definition mutated_keys (ms : list Mutation) : list KeyPtr :=
  flat_map mutated_key ms.

(** An Update or Upsert mutation carries an entity. *)
Definition carries_entity (v : Mutation) : Prop :=
  match Operation v with
  | Some (Mutation_Update None) | Some (Mutation_Upsert None) => False
  | _ => True
  end.

(** ** Package [cache/aememcache]

    The memcache service is outside the package; each method is modelled
    from the point where the service has answered, with the answer as an
    argument. *)

Module aememcache.

(** [keystr] is, word for word, the function of [cache/memory]. *)
Definition keystr (key : KeyPtr) : string := memory.keystr key.

(** The errors of the service as [DeleteMulti] tells them apart. *)
Inductive merror :=
| ErrCacheMiss
| ErrServerError
| ErrOther (msg : string).

(** What [memcache.DeleteMulti] returns when it is not nil: an
    [appengine.MultiError], with one error or nil per key, or another
    error. *)
Inductive derror :=
| MultiError (merr : list (option merror))
| OtherError (e : merror).

(** The loop [for _, e := range merr] looking for a server error. *)
Fixpoint has_server_error (merr : list (option merror)) : bool :=
  match merr with
  | [] => false
  | Some ErrServerError :: _ => true
  | _ :: merr' => has_server_error merr'
  end.

(** [DeleteMulti], given the answer [err] of [memcache.DeleteMulti]. *)
Definition DeleteMulti (err : option derror) : option derror :=
  match err with
  | Some (MultiError merr) =>
    if has_server_error merr then Some (MultiError merr) else None
  | _ => err
  end.

(** The first loop of [GetMulti]: [keymap[keystr(k)] = i]. *)
Fixpoint index_keys (keys : list KeyPtr) (i : nat) (keymap : gmap string nat)
  : gmap string nat :=
  match keys with
  | [] => keymap
  | k :: keys' => index_keys keys' (S i) (<[keystr k := i]> keymap)
  end.

(** The second loop of [GetMulti], [ret[keymap[k]] = v.Value], over the
    items of the answer in the order the map is ranged over. [None] is
    the index-out-of-range panic. *)
Fixpoint fill (keymap : gmap string nat) (items : list (string * bytes))
    (ret : list (option bytes)) : option (list (option bytes)) :=
  match items with
  | [] => Some ret
  | (k, v) :: items' =>
    let i := default 0%nat (keymap !! k) in
    if (i <? length ret)%nat then fill keymap items' (<[i := Some v]> ret)
    else None
  end.

(** [GetMulti], given the answer of [memcache.GetMulti]: [None] for an
    error, the items of the returned map otherwise. *)
Definition GetMulti (answer : option (list (string * bytes))) (keys : list KeyPtr)
  : option (list (option bytes)) :=
  let keymap := index_keys keys 0 ∅ in
  match answer with
  | None => Some []
  | Some items => fill keymap items (replicate (length keys) None)
  end.

End aememcache.

(** ** Keys the slash-joined [keystr] tells apart *)

Fixpoint no_slash (s : string) : bool :=
  match s with
  | EmptyString => true
  | String c s' => negb (Ascii.eqb c "/") && no_slash s'
  end.

(** A path element with a kind without slash and an id, or a name
    without slash. *)
Definition slash_free_element (p : Key_PathElement) : Prop :=
  no_slash (Kind p) = true
  /\ match IdType p with
     | Some (Key_PathElement_Id _) => True
     | Some (Key_PathElement_Name name) => no_slash name = true
     | None => False
     end.

(** A complete key whose namespace is not the marker of the default
    namespace and whose namespace, kinds and names have no slash. *)
Definition slash_free_key (k : Key) : Prop :=
  GetNamespaceId (Key_PartitionId k) <> default_namespace
  /\ no_slash (GetNamespaceId (Key_PartitionId k)) = true
  /\ Forall slash_free_element (Path k).

(** ** Keys the two [keystr] variants tell apart *)

(** What [keystr] writes for the namespace. *)
Definition canonical_namespace (ns : string) : string :=
  if String.eqb ns EmptyString then default_namespace else ns.

Definition is_digit (c : ascii) : bool :=
  let n := nat_of_ascii c in ((48 <=? n) && (n <=? 57))%nat.

Definition non_digit (c : ascii) : bool := negb (is_digit c).

(** The characters an id or a quoted name starts with: a digit, the
    minus sign and the double quote. *)
Definition is_id_char (c : ascii) : bool :=
  is_digit c || Ascii.eqb c "-" || Ascii.eqb c strconv.dquote.

Definition is_slash (c : ascii) : bool := Ascii.eqb c "/".

(** No character of [s] is one of [stop]. *)
Fixpoint free_of (stop : ascii -> bool) (s : string) : bool :=
  match s with
  | EmptyString => true
  | String c s' => negb (stop c) && free_of stop s'
  end.

(** [s] is empty or starts with one of [stop]. *)
Definition stops_at (stop : ascii -> bool) (s : string) : Prop :=
  match s with
  | EmptyString => True
  | String c _ => stop c = true
  end.

(** Only the last element of the path may lack an id and a name (the
    path of an incomplete key). *)
Fixpoint complete_but_last (path : list Key_PathElement) : Prop :=
  match path with
  | [] => True
  | p :: path' => (IdType p = None -> path' = []) /\ complete_but_last path'
  end.

(** A path that the concatenating [keystr] can be read back from: the
    kinds are not empty and hold no digit, minus sign or double quote,
    and only the last element may be incomplete. *)
Definition plain_path (path : list Key_PathElement) : Prop :=
  Forall (fun p => Kind p <> EmptyString /\ free_of is_id_char (Kind p) = true) path
  /\ complete_but_last path.

(** Two namespaces that the concatenating [keystr] keeps apart: they are
    the same, or neither is written as a prefix of what is written for
    the other. *)
Definition namespaces_apart (ns1 ns2 : string) : Prop :=
  ns1 = ns2
  \/ (String.prefix (canonical_namespace ns1) (canonical_namespace ns2) = false
      /\ String.prefix (canonical_namespace ns2) (canonical_namespace ns1) = false).

(** A key that the slash-joined [keystr] can be read back from: the
    namespace is not the marker of the default namespace, the namespace
    and the kinds hold no slash, and only the last element of the path
    may be incomplete. Names are not restricted. *)
Definition slash_separated_key (k : Key) : Prop :=
  GetNamespaceId (Key_PartitionId k) <> default_namespace
  /\ no_slash (GetNamespaceId (Key_PartitionId k)) = true
  /\ Forall (fun p => no_slash (Kind p) = true) (Path k)
  /\ complete_but_last (Path k).

(** ** What the lookup path is meant to ask for and to save *)

Section lookup_spec_more.
Context `{!Proto}.

(** The keys, in request order, whose slot in the answer of the [Cacher]
    is empty or does not deserialize. A key without a slot is not among
    them. *)
Definition missed_keys (keys : list KeyPtr) (cached : list (option bytes))
  : list KeyPtr :=
  map fst (List.filter (fun kv => match is_hit kv.2 with
                                  | Some _ => false
                                  | None => true
                                  end) (combine keys cached)).

(** The remote finds that serialize, each with the key of its entity. *)
Fixpoint saved_entries (got : list EntityResult) : list (KeyPtr * bytes) :=
  match got with
  | [] => []
  | v :: got' =>
    match Marshal v with
    | Some b => (result_key v, b) :: saved_entries got'
    | None => saved_entries got'
    end
  end.

End lookup_spec_more.

(** ** Fixtures for the examples

    A replayer in the manner of the [rpcreplay] connection of the tests: it
    answers each call with the next recorded reply. The codec stands in for
    the protocol-buffer wire format on the sample entities. *)

Module example.

Inductive Replay :=
| ReplayError (e : error)
| ReplayLookup (found : option (list EntityResult))
| ReplayCommit (indexUpdates : Z)
| ReplayRunQuery (batch : option QueryResultBatch).

Definition errReplay : error := "replayer: unexpected call".

Definition replay_into (m : Method) (x : Replay) : Rep m -> option error * Rep m :=
  match m as m0 return Rep m0 -> option error * Rep m0 with
  | Lookup => fun reply =>
      match x with
      | ReplayLookup found => (None, with_Found found reply)
      | ReplayError e => (Some e, reply)
      | _ => (Some errReplay, reply)
      end
  | Commit => fun reply =>
      match x with
      | ReplayCommit n => (None, mkCommitResponse n)
      | ReplayError e => (Some e, reply)
      | _ => (Some errReplay, reply)
      end
  | RunQuery => fun reply =>
      match x with
      | ReplayRunQuery batch => (None, mkRunQueryResponse batch)
      | ReplayError e => (Some e, reply)
      | _ => (Some errReplay, reply)
      end
  | OtherMethod _ => fun reply =>
      match x with
      | ReplayError e => (Some e, reply)
      | _ => (Some errReplay, reply)
      end
  end.

Definition replayer : UnaryInvoker (list Replay) :=
  fun m _ reply r =>
    match r with
    | [] => (Some errReplay, reply, [])
    | x :: r' => let '(err, reply') := replay_into m x reply in (err, reply', r')
    end.

Definition key (id : Z) : Key :=
  mkKey (Some (mkPartitionId "test" EmptyString))
        [mkPathElement "k" (Some (Key_PathElement_Id id))].

Definition entity (id : Z) (data : string) : Entity :=
  mkEntity (Some (key id)) [("Data", data)].

(** A full result and a keys-only result for the entity [id]. *)
Definition full (id : Z) (data : string) : EntityResult :=
  mkEntityResult (Some (entity id data)) 1 [].

Definition key_only (id : Z) : EntityResult :=
  mkEntityResult (Some (mkEntity (Some (key id)) [])) 1 [].

(** One byte of id, then the data. *)
Definition marshal (v : EntityResult) : option bytes :=
  match v with
  | mkEntityResult
      (Some (mkEntity (Some (mkKey _ [mkPathElement _ (Some (Key_PathElement_Id id))]))
                      [(_, data)])) _ _ =>
    match Byte.of_N (Z.to_N id) with
    | Some b => Some (b :: list_byte_of_string data)
    | None => None
    end
  | _ => None
  end.

Definition unmarshal (b : bytes) : option EntityResult :=
  match b with
  | [] => None
  | id :: data => Some (full (Z.of_N (Byte.to_N id)) (string_of_list_byte data))
  end.

Definition codec : Proto := {| Marshal := marshal; Unmarshal := unmarshal |}.

(** The in-memory cache holding the serialized result of each entity. *)
Definition cache_with (vs : list EntityResult) : memory.Cache :=
  foldl (fun c v =>
           match marshal v with
           | Some b => default c (memory.SetMulti 0 c [GetKey (EntityResult_Entity v)] [b])
           | None => c
           end) (memory.NewCache 0) vs.

Definition lookup (ids : list Z) : LookupRequest :=
  mkLookupRequest "test" None (map (fun id => Some (key id)) ids).

Definition lookup_in_transaction (tx : bytes) (ids : list Z) : LookupRequest :=
  mkLookupRequest "test" (Some (mkReadOptions (Some (ReadOptions_Transaction (Some tx)))))
                  (map (fun id => Some (key id)) ids).

Definition no_reply : LookupResponse := mkLookupResponse None [] [].

Definition world (vs : list EntityResult) (script : list Replay)
  : World memory.Cache (list Replay) :=
  mkWorld (cache_with vs) script [].

(** The caching interceptor over the in-memory cache and the replayer. *)
Definition intercept (m : Method)
  : Req m -> Rep m -> World memory.Cache (list Replay)
    -> Outcome * Req m * Rep m * World memory.Cache (list Replay) :=
  @UnaryClientInterceptor memory.Cache (memory_Cacher 0) codec (list Replay) replayer m.

(** A [Cacher] in the manner of the mock of the tests: it answers every
    get-many with [values], fails every delete-many with [err], and records
    the keys it is asked to set and to delete. *)
Record mock := mkMock {
  values : list (option bytes);
  err : option error;
  setKeys : list KeyPtr;
  delKeys : list KeyPtr }.

Definition mock_Cacher : Cacher mock := {|
  GetMulti m _ := (values m, m);
  SetMulti m keys _ := mkMock (values m) (err m) (setKeys m ++ keys) (delKeys m);
  DeleteMulti m keys := (err m, mkMock (values m) (err m) (setKeys m) (delKeys m ++ keys)) |}.

Definition errDelCache : error := "delete cache error".

Definition mutUpdate (id : Z) (data : string) : Mutation :=
  mkMutation (Some (Mutation_Update (Some (entity id data)))).

Definition mutUpsert (id : Z) (data : string) : Mutation :=
  mkMutation (Some (Mutation_Upsert (Some (entity id data)))).

Definition mutDelete (id : Z) : Mutation :=
  mkMutation (Some (Mutation_Delete (Some (key id)))).

(** An Insert with an incomplete key. *)
Definition mutInsert (data : string) : Mutation :=
  mkMutation (Some (Mutation_Insert (Some
    (mkEntity (Some (mkKey (Some (mkPartitionId "test" EmptyString)) [mkPathElement "k" None]))
              [("Data", data)])))).

Definition commit (mode : CommitRequest_Mode) (tx : option bytes) (ms : list Mutation)
  : CommitRequest :=
  mkCommitRequest "test" mode tx ms.

Definition no_commit_reply : CommitResponse := mkCommitResponse 0.

(** The caching interceptor over the mock and the replayer. *)
Definition intercept_mock (m : Method)
  : Req m -> Rep m -> World mock (list Replay)
    -> Outcome * Req m * Rep m * World mock (list Replay) :=
  @UnaryClientInterceptor mock mock_Cacher codec (list Replay) replayer m.

(** A rendering of a key in the manner of the compact text format of the
    generated [String] method. *)
Definition element_text (p : Key_PathElement) : string :=
  "path:<kind:" +:+ strconv.Quote (Kind p) +:+
  match IdType p with
  | Some (Key_PathElement_Id id) => " id:" +:+ strconv.FormatInt id
  | Some (Key_PathElement_Name name) => " name:" +:+ strconv.Quote name
  | None => EmptyString
  end +:+ " > ".

Definition partition_text (p : option PartitionId) : string :=
  match p with
  | Some p =>
    "partition_id:<project_id:" +:+ strconv.Quote (PartitionId_ProjectId p) +:+
    " namespace_id:" +:+ strconv.Quote (NamespaceId p) +:+ " > "
  | None => EmptyString
  end.

Definition Key_String (k : KeyPtr) : string :=
  match k with
  | Some k =>
    partition_text (Key_PartitionId k) +:+
    foldr (fun p s => element_text p +:+ s) EmptyString (Path k)
  | None => "<nil>"
  end.

Definition query : Query := mkQuery None ["k"] None 0.

Definition run_query (q : Query) : RunQueryRequest :=
  mkRunQueryRequest "test" None (Some (RunQueryRequest_Query (Some q))).

Definition no_query_reply : RunQueryResponse := mkRunQueryResponse None.

Definition keys_only_batch (ids : list Z) : option QueryResultBatch :=
  Some (mkQueryResultBatch KEY_ONLY (map key_only ids)).

End example.

(** ** Further fixtures *)

(** The in-memory cache with the given expiration after a [SetMulti] at
    the clock value [now]. *)
Definition cache_in (now expiration : Z) (keys : list KeyPtr) (values : list bytes)
  : memory.Cache :=
  default (memory.NewCache expiration)
          (memory.SetMulti now (memory.NewCache expiration) keys values).

(** * Properties *)

(** ** The canonical key string *)

(** The expectations of the tests of [keystr]. *)
Example keystr_memory_id :
  memory.keystr (Some (mkKey None [mkPathElement "kind" (Some (Key_PathElement_Id 1))]))
  = "[default]kind1".
Proof. reflexivity. Qed.

Example keystr_redis_name :
  redis.keystr (Some (mkKey None [mkPathElement "kind" (Some (Key_PathElement_Name "name"))]))
  = "[default]/kind/" +:+ strconv.Quote "name".
Proof. reflexivity. Qed.

Section keystr_properties.

Lemma append_nil_l (a : string) : EmptyString +:+ a = a.
Proof. reflexivity. Qed.

Lemma append_cons (x : ascii) (a b : string) :
  String x a +:+ b = String x (a +:+ b).
Proof. reflexivity. Qed.

Lemma append_assoc (a b c : string) : (a +:+ b) +:+ c = a +:+ (b +:+ c).
Proof.
  induction a as [|x a IH]; [done|]. by rewrite !append_cons, IH.
Qed.

Lemma append_nil_r (a : string) : a +:+ EmptyString = a.
Proof.
  induction a as [|x a IH]; [done|]. by rewrite append_cons, IH.
Qed.

Lemma append_cancel_l (a b c : string) : a +:+ b = a +:+ c -> b = c.
Proof.
  induction a as [|x a IH]; [done|].
  rewrite !append_cons. intros [= Heq]. by apply IH.
Qed.

(** *** [strconv.Quote] and [strconv.FormatInt] can be read back *)

Lemma unescape_escape (c : ascii) (rest : string) :
  strconv.unescape (strconv.escape c +:+ rest) = Some (c, rest).
Proof. destruct c as [[] [] [] [] [] [] [] []]; reflexivity. Qed.

Lemma quoted_body_inj (s1 : string) :
  forall s2 r1 r2 : string,
    strconv.quoted_body s1 +:+ String strconv.dquote r1
    = strconv.quoted_body s2 +:+ String strconv.dquote r2 ->
    s1 = s2.
Proof.
  induction s1 as [|c1 s1 IH]; intros [|c2 s2] r1 r2 Heq; simpl in Heq;
    rewrite ?append_nil_l in Heq.
  - done.
  - apply (f_equal strconv.unescape) in Heq.
    rewrite append_assoc, unescape_escape in Heq. discriminate.
  - apply (f_equal strconv.unescape) in Heq.
    rewrite append_assoc, unescape_escape in Heq. discriminate.
  - apply (f_equal strconv.unescape) in Heq.
    rewrite !append_assoc, !unescape_escape in Heq.
    injection Heq as -> Heq. f_equal. by eapply IH.
Qed.

Lemma Quote_inj (s1 s2 : string) : strconv.Quote s1 = strconv.Quote s2 -> s1 = s2.
Proof. unfold strconv.Quote. intros [= Heq]. by eapply quoted_body_inj. Qed.

Lemma FormatInt_inj (a b : Z) : strconv.FormatInt a = strconv.FormatInt b -> a = b.
Proof.
  unfold strconv.FormatInt. intros Heq.
  apply (f_equal NilEmpty.int_of_string) in Heq.
  rewrite !NilEmpty.isi in Heq. injection Heq as Heq.
  by apply DecimalZ.to_int_inj.
Qed.

(** A formatted integer starts with a digit or a minus sign. *)
Lemma FormatInt_head (z : Z) :
  exists c s, strconv.FormatInt z = String c s /\ c <> strconv.dquote.
Proof.
  unfold strconv.FormatInt. destruct z as [|p|p]; simpl.
  - by eexists _, _.
  - pose proof (DecimalPos.Unsigned.to_uint_nonnil p) as Hp.
    destruct (Pos.to_uint p); [done|..]; by eexists _, _.
  - by eexists _, _.
Qed.

Lemma idstr_inj (t1 t2 : option Key_PathElement_IdType) :
  memory.idstr t1 = memory.idstr t2 -> t1 = t2.
Proof.
  destruct t1 as [[a|a]|], t2 as [[b|b]|]; simpl; intros Heq; try done.
  - by rewrite (FormatInt_inj _ _ Heq).
  - destruct (FormatInt_head a) as (c & s & Hs & Hc).
    rewrite Hs in Heq. unfold strconv.Quote in Heq. by injection Heq.
  - destruct (FormatInt_head a) as (c & s & Hs & Hc).
    rewrite Hs in Heq. discriminate.
  - destruct (FormatInt_head b) as (c & s & Hs & Hc).
    rewrite Hs in Heq. unfold strconv.Quote in Heq. injection Heq; congruence.
  - by rewrite (Quote_inj _ _ Heq).
  - destruct (FormatInt_head b) as (c & s & Hs & Hc).
    rewrite Hs in Heq. discriminate.
Qed.

(** *** Reading a canonical string back *)

(** Two strings free of the stop characters, each followed by the end or
    by a stop character, and equal as a whole, are equal, and so are the
    rests. *)
Lemma split_stop (stop : ascii -> bool) (a : string) :
  forall b x y : string,
    free_of stop a = true -> free_of stop b = true ->
    stops_at stop x -> stops_at stop y ->
    a +:+ x = b +:+ y -> a = b /\ x = y.
Proof.
  induction a as [|c a IH]; intros [|d b] x y Ha Hb Hx Hy Heq;
    rewrite ?append_nil_l, ?append_cons in Heq; simpl in Ha, Hb.
  - done.
  - subst x. simpl in Hx. rewrite Hx in Hb. done.
  - subst y. simpl in Hy. rewrite Hy in Ha. done.
  - injection Heq as -> Heq.
    apply andb_true_iff in Ha as [_ Ha]. apply andb_true_iff in Hb as [_ Hb].
    destruct (IH _ _ _ Ha Hb Hx Hy Heq) as [-> ->]. done.
Qed.

Lemma no_slash_free_of (s : string) : no_slash s = free_of is_slash s.
Proof. induction s as [|c s IH]; [done|]. simpl. by rewrite IH. Qed.

Lemma string_of_uint_digits (u : Decimal.uint) :
  free_of non_digit (NilEmpty.string_of_uint u) = true.
Proof. induction u; done. Qed.

(** A formatted integer followed by the end or by a character that is
    not a digit can be read back, and leaves the rest. *)
Lemma FormatInt_split (a b : Z) (x y : string) :
  stops_at non_digit x -> stops_at non_digit y ->
  strconv.FormatInt a +:+ x = strconv.FormatInt b +:+ y -> a = b /\ x = y.
Proof.
  intros Hx Hy Heq.
  assert (Hnn : forall z, match Z.to_int z with
                          | Decimal.Pos u | Decimal.Neg u => u <> Decimal.Nil
                          end).
  { intros [|p|p]; simpl; [done|apply DecimalPos.Unsigned.to_uint_nonnil..]. }
  assert (Hhead : forall u, u <> Decimal.Nil ->
            exists c s, NilEmpty.string_of_uint u = String c s /\ c <> "-"%char).
  { intros [] Hu; [done|..]; by eexists _, _. }
  enough (strconv.FormatInt a = strconv.FormatInt b /\ x = y) as [Hab ->]
    by (split; [by apply FormatInt_inj|done]).
  unfold strconv.FormatInt in *.
  pose proof (Hnn a) as Ha. pose proof (Hnn b) as Hb.
  destruct (Z.to_int a) as [u|u], (Z.to_int b) as [v|v]; simpl in *.
  - apply split_stop with (stop := non_digit) in Heq;
      auto using string_of_uint_digits.
  - destruct (Hhead u Ha) as (c & s & Hs & Hc). rewrite Hs in Heq.
    rewrite !append_cons in Heq. injection Heq as -> _. done.
  - destruct (Hhead v Hb) as (c & s & Hs & Hc). rewrite Hs in Heq.
    rewrite !append_cons in Heq. injection Heq as <- _. done.
  - rewrite !append_cons in Heq. injection Heq as Heq.
    apply split_stop with (stop := non_digit) in Heq;
      auto using string_of_uint_digits.
    destruct Heq as [-> ->]. done.
Qed.

(** An id or a quoted name followed by the end or by a character that is
    not a digit can be read back, and leaves the rest. *)
Lemma idstr_split (t1 t2 : Key_PathElement_IdType) (x y : string) :
  stops_at non_digit x -> stops_at non_digit y ->
  memory.idstr (Some t1) +:+ x = memory.idstr (Some t2) +:+ y ->
  t1 = t2 /\ x = y.
Proof.
  intros Hx Hy Heq. destruct t1 as [a|a], t2 as [b|b]; simpl in Heq.
  - destruct (FormatInt_split _ _ _ _ Hx Hy Heq) as [-> ->]. done.
  - destruct (FormatInt_head a) as (c & s & Hs & Hc). rewrite Hs in Heq.
    unfold strconv.Quote in Heq. rewrite !append_cons in Heq.
    injection Heq as -> _. done.
  - destruct (FormatInt_head b) as (c & s & Hs & Hc). rewrite Hs in Heq.
    unfold strconv.Quote in Heq. rewrite !append_cons in Heq.
    injection Heq as <- _. done.
  - unfold strconv.Quote in Heq.
    rewrite !append_cons, !append_assoc, !append_cons, !append_nil_l in Heq.
    injection Heq as Heq.
    pose proof (quoted_body_inj _ _ _ _ Heq) as ->.
    apply append_cancel_l in Heq. injection Heq as ->. done.
Qed.

Lemma idstr_head (t : Key_PathElement_IdType) :
  exists c s, memory.idstr (Some t) = String c s /\ is_id_char c = true.
Proof.
  destruct t as [[|p|p]|name]; simpl.
  - by eexists _, _.
  - unfold strconv.FormatInt. simpl.
    pose proof (DecimalPos.Unsigned.to_uint_nonnil p) as Hp.
    destruct (Pos.to_uint p); [done|..]; by eexists _, _.
  - by eexists _, _.
  - by eexists _, _.
Qed.

(** *** The concatenating loop *)

Lemma write_path_tail (path : list Key_PathElement) :
  forall b : string,
    memory.write_path b path = b +:+ memory.write_path EmptyString path.
Proof.
  induction path as [|p path IH]; intros b; simpl.
  - by rewrite append_nil_r.
  - rewrite (IH (b +:+ _)), (IH (EmptyString +:+ _)).
    by rewrite append_nil_l, !append_assoc.
Qed.

Lemma write_path_cons (p : Key_PathElement) (path : list Key_PathElement) :
  memory.write_path EmptyString (p :: path)
  = Kind p +:+ memory.idstr (IdType p) +:+ memory.write_path EmptyString path.
Proof.
  simpl. rewrite write_path_tail. by rewrite append_nil_l, !append_assoc.
Qed.

Lemma write_path_stops (path : list Key_PathElement) :
  Forall (fun p => Kind p <> EmptyString /\ free_of is_id_char (Kind p) = true) path ->
  stops_at non_digit (memory.write_path EmptyString path).
Proof.
  intros [|p path' [Hne Hfree] _]; [done|].
  rewrite write_path_cons.
  destruct (Kind p) as [|c s]; [done|].
  rewrite append_cons. simpl in *.
  apply andb_true_iff in Hfree as [Hc _].
  unfold non_digit. unfold is_id_char in Hc.
  by destruct (is_digit c).
Qed.

Lemma write_path_inj (p1 : list Key_PathElement) :
  forall p2 : list Key_PathElement,
    plain_path p1 -> plain_path p2 ->
    memory.write_path EmptyString p1 = memory.write_path EmptyString p2 ->
    p1 = p2.
Proof.
  assert (Hafter : forall (t : option Key_PathElement_IdType) path,
            (t = None -> path = []) ->
            stops_at is_id_char (memory.idstr t +:+ memory.write_path EmptyString path)).
  { intros [t|] path Hlast.
    - destruct (idstr_head t) as (c & s & -> & Hc). by rewrite append_cons.
    - by rewrite (Hlast eq_refl). }
  induction p1 as [|[k1 t1] p1 IH]; intros [|[k2 t2] p2] [Hk1 Hc1] [Hk2 Hc2] Heq.
  - done.
  - rewrite write_path_cons in Heq. apply Forall_cons in Hk2 as [[Hne _] _].
    simpl in *. destruct k2; [done|]. by rewrite append_cons in Heq.
  - rewrite write_path_cons in Heq. apply Forall_cons in Hk1 as [[Hne _] _].
    simpl in *. destruct k1; [done|]. by rewrite append_cons in Heq.
  - rewrite !write_path_cons in Heq.
    apply Forall_cons in Hk1 as [[_ Hf1] Hk1]. apply Forall_cons in Hk2 as [[_ Hf2] Hk2].
    destruct Hc1 as [Hl1 Hc1]. destruct Hc2 as [Hl2 Hc2]. simpl in *.
    apply split_stop with (stop := is_id_char) in Heq; auto.
    destruct Heq as [-> Heq].
    destruct t1 as [t1|], t2 as [t2|].
    + apply idstr_split in Heq; auto using write_path_stops.
      destruct Heq as [-> Heq]. f_equal. by apply IH.
    + rewrite (Hl2 eq_refl) in Heq.
      destruct (idstr_head t1) as (c & s & Hs & _). rewrite Hs in Heq.
      by rewrite append_cons in Heq.
    + rewrite (Hl1 eq_refl) in Heq.
      destruct (idstr_head t2) as (c & s & Hs & _). rewrite Hs in Heq.
      by rewrite append_cons in Heq.
    + by rewrite (Hl1 eq_refl), (Hl2 eq_refl).
Qed.

(** Strings with a common extension: one is a prefix of the other. *)
Lemma prefix_of_extension (a : string) :
  forall b x y : string,
    a +:+ x = b +:+ y -> String.prefix a b = true \/ String.prefix b a = true.
Proof.
  induction a as [|c a IH]; intros [|d b] x y Heq; simpl; auto.
  rewrite !append_cons in Heq. injection Heq as -> Heq.
  destruct (ascii_dec d d) as [_|Hd]; [|done]. by eapply IH.
Qed.

Lemma memory_keystr_tail (k : Key) :
  memory.keystr (Some k)
  = canonical_namespace (GetNamespaceId (Key_PartitionId k))
    +:+ memory.write_path EmptyString (Path k).
Proof. unfold memory.keystr. simpl. by rewrite write_path_tail. Qed.

(** *** The slash-joined loop *)

(** What [strings.Join] writes after the first element. *)
Local Abbreviation joined_tail l :=
  (foldr (fun (seg acc : string) => String "/" (seg +:+ acc)) EmptyString l).

Local Abbreviation segments path :=
  (flat_map (fun p => Kind p :: redis.idparts (IdType p)) path).

Lemma Join_tail (l : list string) :
  forall a : string, strings.Join (a :: l) "/" = a +:+ joined_tail l.
Proof.
  induction l as [|b l IH]; intros a.
  - simpl. by rewrite append_nil_r.
  - change (strings.Join (a :: b :: l) "/")
      with (a +:+ String "/" (strings.Join (b :: l) "/")).
    by rewrite IH.
Qed.

(** The segments the loop over the path collects. *)
Lemma collect_path_segments (path : list Key_PathElement) :
  forall s : list string, redis.collect_path s path = s ++ segments path.
Proof.
  induction path as [|p path IH]; intros s; simpl.
  - by rewrite app_nil_r.
  - rewrite IH. by rewrite <- !app_assoc.
Qed.

Lemma joined_tail_cons (p : Key_PathElement) (path : list Key_PathElement) :
  joined_tail (segments (p :: path))
  = String "/" (Kind p +:+ match IdType p with
                           | Some t => String "/" (memory.idstr (Some t)
                                                   +:+ joined_tail (segments path))
                           | None => joined_tail (segments path)
                           end).
Proof. by destruct p as [k [[id|name]|]]. Qed.

Lemma joined_tail_stops (stop : ascii -> bool) (path : list Key_PathElement) :
  stop "/"%char = true -> stops_at stop (joined_tail (segments path)).
Proof. intros Hstop. destruct path as [|p path]; [done|]. by rewrite joined_tail_cons. Qed.

Lemma segments_tail_inj (p1 : list Key_PathElement) :
  forall p2 : list Key_PathElement,
    Forall (fun p => no_slash (Kind p) = true) p1 -> complete_but_last p1 ->
    Forall (fun p => no_slash (Kind p) = true) p2 -> complete_but_last p2 ->
    joined_tail (segments p1) = joined_tail (segments p2) -> p1 = p2.
Proof.
  assert (Hafter : forall (t : option Key_PathElement_IdType) path,
            (t = None -> path = []) ->
            stops_at is_slash
              match t with
              | Some t => String "/" (memory.idstr (Some t) +:+ joined_tail (segments path))
              | None => joined_tail (segments path)
              end).
  { intros [t|] path Hlast; [done|]. by rewrite (Hlast eq_refl). }
  induction p1 as [|[k1 t1] p1 IH]; intros [|[k2 t2] p2] Hk1 Hc1 Hk2 Hc2 Heq.
  - done.
  - by rewrite joined_tail_cons in Heq.
  - by rewrite joined_tail_cons in Heq.
  - rewrite !joined_tail_cons in Heq. injection Heq as Heq.
    apply Forall_cons in Hk1 as [Hf1 Hk1]. apply Forall_cons in Hk2 as [Hf2 Hk2].
    destruct Hc1 as [Hl1 Hc1]. destruct Hc2 as [Hl2 Hc2]. simpl in *.
    rewrite no_slash_free_of in Hf1, Hf2.
    apply split_stop with (stop := is_slash) in Heq; auto.
    destruct Heq as [-> Heq].
    destruct t1 as [t1|], t2 as [t2|].
    + injection Heq as Heq.
      apply idstr_split in Heq; auto using joined_tail_stops.
      destruct Heq as [-> Heq]. f_equal. by apply IH.
    + by rewrite (Hl2 eq_refl) in Heq.
    + by rewrite (Hl1 eq_refl) in Heq.
    + by rewrite (Hl1 eq_refl), (Hl2 eq_refl).
Qed.

Lemma redis_keystr_tail (k : Key) :
  redis.keystr (Some k)
  = canonical_namespace (GetNamespaceId (Key_PartitionId k))
    +:+ joined_tail (segments (Path k)).
Proof.
  unfold redis.keystr, canonical_namespace. simpl.
  destruct (String.eqb _ _); by rewrite collect_path_segments, <- Join_tail.
Qed.

(** Equal keys have equal canonical strings, in both variants. *)
Lemma keystr_same_key (k1 k2 : Key) :
  same_key k1 k2 ->
  memory.keystr (Some k1) = memory.keystr (Some k2)
  /\ redis.keystr (Some k1) = redis.keystr (Some k2).
Proof.
  intros [Hns Hpath]. unfold memory.keystr, redis.keystr. simpl.
  by rewrite Hns, Hpath.
Qed.

(** C6, as the code has it. Equal keys have equal canonical strings, and
    on the keys that each variant of [keystr] can be read back from, the
    canonical string is injective: two such keys, of whatever namespaces,
    kinds and path lengths, have the same string exactly when they are
    equal. For the concatenating [keystr] these are the keys whose kinds
    are not empty and hold no digit, minus sign or double quote, with
    namespaces that are the same or of which neither is written as a
    prefix of the other; for the slash-joined [keystr] they are the keys
    whose namespace and kinds hold no slash and whose namespace is not
    the marker of the default namespace. In both, only the last element
    of a path may lack an id and a name, and names are arbitrary. *)
Theorem keystr_injective_on_readable_keys (k1 k2 : Key) :
  (same_key k1 k2 ->
   memory.keystr (Some k1) = memory.keystr (Some k2)
   /\ redis.keystr (Some k1) = redis.keystr (Some k2))
  /\ (namespaces_apart (GetNamespaceId (Key_PartitionId k1))
                       (GetNamespaceId (Key_PartitionId k2)) ->
      plain_path (Path k1) -> plain_path (Path k2) ->
      (memory.keystr (Some k1) = memory.keystr (Some k2) <-> same_key k1 k2))
  /\ (slash_separated_key k1 -> slash_separated_key k2 ->
      (redis.keystr (Some k1) = redis.keystr (Some k2) <-> same_key k1 k2)).
Proof.
  split; [apply keystr_same_key|]. split.
  - intros Hns Hp1 Hp2. split; [|intros Hk; by apply keystr_same_key].
    rewrite !memory_keystr_tail. intros Heq.
    destruct Hns as [Hns | [Hpre1 Hpre2]].
    + rewrite Hns in Heq. apply append_cancel_l in Heq.
      split; [done|]. by apply write_path_inj.
    + apply prefix_of_extension in Heq as [Hpre | Hpre]; congruence.
  - intros (Hm1 & Hn1 & Hk1 & Hc1) (Hm2 & Hn2 & Hk2 & Hc2).
    split; [|intros Hk; by apply keystr_same_key].
    rewrite !redis_keystr_tail. intros Heq.
    assert (Hfree : forall ns : string,
              no_slash ns = true -> free_of is_slash (canonical_namespace ns) = true).
    { intros ns Hns. unfold canonical_namespace.
      destruct (String.eqb ns EmptyString); [reflexivity|].
      by rewrite <- no_slash_free_of. }
    apply split_stop with (stop := is_slash) in Heq;
      auto using joined_tail_stops.
    destruct Heq as [Hns Heq]. split; [|by apply segments_tail_inj].
    unfold canonical_namespace in Hns.
    destruct (String.eqb_spec (GetNamespaceId (Key_PartitionId k1)) EmptyString);
      destruct (String.eqb_spec (GetNamespaceId (Key_PartitionId k2)) EmptyString);
      congruence.
Qed.

End keystr_properties.

Lemma keystr_injective_on_readable_keys_witness :
  let k1 := mkKey (Some (mkPartitionId "test" "tenantA"))
                  [mkPathElement "User" (Some (Key_PathElement_Id 1))] in
  let k2 := mkKey (Some (mkPartitionId "test" "tenantB"))
                  [mkPathElement "Order" (Some (Key_PathElement_Name "2019/10"));
                   mkPathElement "Line" None] in
  (memory.keystr (Some k1) = memory.keystr (Some k2) <-> same_key k1 k2)
  /\ (redis.keystr (Some k1) = redis.keystr (Some k2) <-> same_key k1 k2).
Proof.
  destruct (keystr_injective_on_readable_keys
              (mkKey (Some (mkPartitionId "test" "tenantA"))
                     [mkPathElement "User" (Some (Key_PathElement_Id 1))])
              (mkKey (Some (mkPartitionId "test" "tenantB"))
                     [mkPathElement "Order" (Some (Key_PathElement_Name "2019/10"));
                      mkPathElement "Line" None])) as (_ & Hmemory & Hredis).
  split.
  - apply Hmemory.
    + right. split; reflexivity.
    + split; [|simpl; tauto]. repeat constructor; discriminate.
    + split; [|simpl; intuition discriminate]. repeat constructor; discriminate.
  - apply Hredis.
    + split; [discriminate|]. split; [reflexivity|].
      split; [|simpl; tauto]. repeat constructor.
    + split; [discriminate|]. split; [reflexivity|].
      split; [|simpl; intuition discriminate]. repeat constructor.
Defined.

(** C6, as stated, fails, and so it does without each of the conditions
    above. With the concatenating [keystr]: a digit, a minus sign or a
    double quote in a kind moves the boundary between kind and id; so
    does an empty kind, an incomplete element before the last, and a
    namespace that is written as a prefix of another. With the
    slash-joined [keystr]: a slash in a kind or in a namespace adds
    segments, and an incomplete element before the last shifts them. In
    both, the empty namespace is written as the namespace [[default]]
    is. *)
Lemma keystr_not_injective :
  let id n := Some (Key_PathElement_Id n) in
  let name s := Some (Key_PathElement_Name s) in
  let collide (keystr : KeyPtr -> string) (a b : Key) :=
    ~ same_key a b /\ keystr (Some a) = keystr (Some b) in
  let ns s := Some (mkPartitionId "test" s) in
  (collide memory.keystr
           (mkKey None [mkPathElement "k" (id 12)])
           (mkKey None [mkPathElement "k1" (id 2)])
   /\ collide memory.keystr
              (mkKey None [mkPathElement "a-" (id 1)])
              (mkKey None [mkPathElement "a" (id (-1))])
   /\ collide memory.keystr
              (mkKey None [mkPathElement "k" (name "x"); mkPathElement "j" (id 1)])
              (mkKey None [mkPathElement ("k" +:+ strconv.Quote "x" +:+ "j") (id 1)])
   /\ collide memory.keystr
              (mkKey None [mkPathElement EmptyString (id 1);
                           mkPathElement EmptyString (id 2)])
              (mkKey None [mkPathElement EmptyString (id 12)])
   /\ collide memory.keystr
              (mkKey None [mkPathElement "a" None; mkPathElement "b" (id 1)])
              (mkKey None [mkPathElement "ab" (id 1)])
   /\ collide memory.keystr
              (mkKey (ns "a") [mkPathElement "bc" (id 1)])
              (mkKey (ns "ab") [mkPathElement "c" (id 1)])
   /\ collide memory.keystr
              (mkKey (ns EmptyString) [mkPathElement "k" (id 1)])
              (mkKey (ns default_namespace) [mkPathElement "k" (id 1)]))
  /\ (collide redis.keystr
              (mkKey None [mkPathElement "k" (id 1); mkPathElement "j" (id 2)])
              (mkKey None [mkPathElement "k/1/j" (id 2)])
      /\ collide redis.keystr
                 (mkKey (ns "a/k/1") [mkPathElement "j" (id 2)])
                 (mkKey (ns "a") [mkPathElement "k" (id 1); mkPathElement "j" (id 2)])
      /\ collide redis.keystr
                 (mkKey None [mkPathElement "a" None; mkPathElement "5" None])
                 (mkKey None [mkPathElement "a" (id 5)])
      /\ collide redis.keystr
                 (mkKey (ns EmptyString) [mkPathElement "k" (id 1)])
                 (mkKey (ns default_namespace) [mkPathElement "k" (id 1)])).
Proof.
  repeat split; try reflexivity; intros [Hns Hpath]; discriminate.
Qed.

(** ** The loops of the caching interceptor *)

Section loops.
Context `{!Proto}.

(** The loop over [cached] computes the hits and the missed keys, and
    does not panic when the [Cacher] returned no more values than
    keys. *)
Lemma scan_cached_spec (keys : list KeyPtr) (cached : list (option bytes)) :
  forall (i : nat) (found : list EntityResult) (missing : list KeyPtr),
    (length cached + i <= length keys)%nat ->
    scan_cached keys cached i found missing
    = Some (found ++ cache_hits cached, missing ++ cache_misses (drop i keys) cached).
Proof.
  induction cached as [|v cached IH]; intros i found missing Hlen; simpl in *.
  - by rewrite !app_nil_r.
  - assert (Hi : (i < length keys)%nat) by lia.
    destruct (lookup_lt_is_Some_2 keys i Hi) as [k Hk].
    rewrite (drop_S _ _ _ Hk), Hk.
    assert (Hnext : (length cached + S i <= length keys)%nat) by lia.
    destruct v as [b|]; simpl.
    + destruct (Unmarshal b) as [e|] eqn:He; simpl.
      * rewrite (IH (S i) _ _ Hnext). by rewrite <- app_assoc.
      * rewrite (IH (S i) _ _ Hnext). by rewrite <- app_assoc.
    + rewrite (IH (S i) _ _ Hnext). by rewrite <- app_assoc.
Qed.

Lemma cache_hits_length (cached : list (option bytes)) :
  (length (cache_hits cached) <= length cached)%nat.
Proof.
  induction cached as [|v cached IH]; simpl; [lia|].
  destruct (is_hit v); simpl; lia.
Qed.


Lemma save_cache_returns (got : list EntityResult) :
  Forall (fun v => is_Some (EntityResult_Entity v)) got ->
  forall skeys values, is_Some (save_cache got skeys values).
Proof.
  induction 1 as [|v got [e He] _ IH]; intros skeys values; simpl; [by eexists|].
  rewrite He. destruct (Marshal v); apply IH.
Qed.

(** [SetMulti] is handed as many values as keys. *)
Lemma save_cache_same_length (got : list EntityResult) :
  forall skeys values skeys' values',
    save_cache got skeys values = Some (skeys', values') ->
    length skeys = length values -> length skeys' = length values'.
Proof.
  induction got as [|v got IH]; intros skeys values skeys' values' Hsave Hlen;
    simpl in Hsave.
  - by inversion Hsave; subst.
  - destruct (Marshal v) as [b|]; [|by eapply IH].
    destruct (EntityResult_Entity v) as [e|]; [|done].
    eapply IH; [exact Hsave|]. rewrite !length_app; simpl; lia.
Qed.

Lemma mutation_keys_spec (ms : list Mutation) :
  Forall carries_entity ms ->
  forall keys, mutation_keys ms keys = Some (keys ++ mutated_keys ms).
Proof.
  induction 1 as [|v ms Hv _ IH]; intros keys; simpl.
  - by rewrite app_nil_r.
  - unfold carries_entity, mutated_key in *.
    destruct (Operation v) as [[e|[e|]|[e|]|k]|]; simpl; try done;
      rewrite ?IH, <- ?app_assoc; done.
Qed.

Lemma cacher_calls_snoc (evs : list Event) (e : Event) :
  cacher_calls (evs ++ [e]) = cacher_calls evs ++ (if is_cacher e then [e] else []).
Proof.
  unfold cacher_calls. rewrite filter_app. f_equal.
  unfold filter; simpl. by destruct (is_cacher e).
Qed.


End loops.

(** ** The caching interceptor *)

Section cache_properties.
Context {C : Type} `{!Cacher C} `{!Proto} {R : Type} (invoker : UnaryInvoker R).


(** C5. A Lookup whose read options carry a transaction is handed to the
    invoker as it is, and what the invoker returns is returned; the
    [Cacher] is not called (its state and the list of calls made to it
    are as before). *)
Theorem lookup_in_transaction_bypasses_cache (in_ : LookupRequest)
    (out : LookupResponse) (w : World C R) (tx : bytes)
    (err : option error) (out' : LookupResponse) (r' : R) :
  GetTransaction (LookupRequest_ReadOptions in_) = Some tx ->
  invoker Lookup in_ out (remote w) = (err, out', r') ->
  let res := UnaryClientInterceptor invoker Lookup in_ out w in
  res = (Returned err, in_, out',
         mkWorld (cacher w) r' (events w ++ [InvokeLookup in_]))
  /\ cacher_calls (events (world_of res)) = cacher_calls (events w).
Proof.
  intros Htx Hinv res.
  assert (Hres : res = (Returned err, in_, out',
            mkWorld (cacher w) r' (events w ++ [InvokeLookup in_]))).
  { subst res. simpl. unfold intercept_Lookup, forward, invoke.
    by rewrite Htx, Hinv. }
  split; [exact Hres|].
  rewrite Hres. unfold world_of; simpl.
  rewrite cacher_calls_snoc; simpl. by rewrite app_nil_r.
Qed.

(** C4. When the remote Commit fails, its error is returned and the
    [Cacher] is not called: its state and the list of calls made to it
    are as before. *)
Theorem commit_error_skips_invalidation (in_ : CommitRequest) (out : CommitResponse)
    (w : World C R) (e : error) (out1 : CommitResponse) (r1 : R) :
  invoker Commit in_ out (remote w) = (Some e, out1, r1) ->
  let res := UnaryClientInterceptor invoker Commit in_ out w in
  res = (Returned (Some e), in_, out1,
         mkWorld (cacher w) r1 (events w ++ [InvokeCommit in_]))
  /\ cacher_calls (events (world_of res)) = cacher_calls (events w).
Proof.
  intros Hinv res.
  assert (Hres : res = (Returned (Some e), in_, out1,
            mkWorld (cacher w) r1 (events w ++ [InvokeCommit in_]))).
  { subst res. simpl. unfold intercept_Commit, invoke. by rewrite Hinv. }
  split; [exact Hres|].
  rewrite Hres. unfold world_of; simpl.
  rewrite cacher_calls_snoc; simpl. by rewrite app_nil_r.
Qed.

(** C3. After a successful remote Commit the interceptor collects the
    keys of the Update, Upsert and Delete mutations in mutation order
    (an Insert gives none). When there is at least one, delete-many is
    called with exactly that list and what it returns is what the call
    returns; when there is none, the call returns nil and delete-many is
    not called. *)
Theorem commit_invalidates_mutated_keys (in_ : CommitRequest) (out : CommitResponse)
    (w : World C R) (out1 : CommitResponse) (r1 : R) :
  Forall carries_entity (Mutations in_) ->
  invoker Commit in_ out (remote w) = (None, out1, r1) ->
  UnaryClientInterceptor invoker Commit in_ out w
  = let keys := mutated_keys (Mutations in_) in
    let evs := events w ++ [InvokeCommit in_] in
    match keys with
    | [] => (Returned None, in_, out1, mkWorld (cacher w) r1 evs)
    | _ :: _ =>
      (Returned (DeleteMulti (cacher w) keys).1, in_, out1,
       mkWorld (DeleteMulti (cacher w) keys).2 r1 (evs ++ [CacherDeleteMulti keys]))
    end.
Proof.
  intros Hwf Hinv. simpl. unfold intercept_Commit, invoke, deleteMulti.
  rewrite Hinv, (mutation_keys_spec _ Hwf). simpl.
  destruct (mutated_keys (Mutations in_)) as [|k keys]; simpl; [done|].
  by destruct (DeleteMulti (cacher w) (k :: keys)).
Qed.

(** C10. The invalidation of a successful Commit is decided by the
    mutation list alone, whatever mode and transaction the request
    carries. Of two successful commits with the same mutations, one
    transactional and one not, say, each calls delete-many on its
    [Cacher] exactly once, with the keys of the Update, Upsert and Delete
    mutations in mutation order, returns what delete-many returned and
    leaves the [Cacher] as delete-many left it; when the mutations give
    no key, each returns nil and makes no call to its [Cacher]. *)
Theorem commit_invalidation_ignores_transaction
    (in1 in2 : CommitRequest) (out1 out2 : CommitResponse) (w1 w2 : World C R)
    (o1 o2 : CommitResponse) (r1 r2 : R) :
  Mutations in1 = Mutations in2 ->
  Forall carries_entity (Mutations in1) ->
  invoker Commit in1 out1 (remote w1) = (None, o1, r1) ->
  invoker Commit in2 out2 (remote w2) = (None, o2, r2) ->
  let keys := mutated_keys (Mutations in1) in
  let calls := match keys with [] => [] | _ :: _ => [CacherDeleteMulti keys] end in
  let deleted c := match keys with [] => (None, c) | _ :: _ => DeleteMulti c keys end in
  let res1 := UnaryClientInterceptor invoker Commit in1 out1 w1 in
  let res2 := UnaryClientInterceptor invoker Commit in2 out2 w2 in
  cacher_calls (events (world_of res1)) = cacher_calls (events w1) ++ calls
  /\ cacher_calls (events (world_of res2)) = cacher_calls (events w2) ++ calls
  /\ outcome_of res1 = Returned (deleted (cacher w1)).1
  /\ outcome_of res2 = Returned (deleted (cacher w2)).1
  /\ cacher (world_of res1) = (deleted (cacher w1)).2
  /\ cacher (world_of res2) = (deleted (cacher w2)).2.
Proof.
  intros Hms Hwf Hinv1 Hinv2. simpl.
  unfold intercept_Commit, invoke, deleteMulti.
  rewrite Hinv1, Hinv2, <- Hms, (mutation_keys_spec _ Hwf). simpl.
  destruct (mutated_keys (Mutations in1)) as [|k keys]; simpl.
  - unfold outcome_of, world_of; simpl.
    rewrite !cacher_calls_snoc; simpl. by rewrite !app_nil_r.
  - destruct (DeleteMulti (cacher w1) (k :: keys)) as [err1 c1].
    destruct (DeleteMulti (cacher w2) (k :: keys)) as [err2 c2].
    unfold outcome_of, world_of; simpl.
    rewrite !cacher_calls_snoc; simpl. by rewrite !app_nil_r.
Qed.

(** C1, as the code has it. On a non-transactional Lookup with at least
    one miss, when the remote call succeeds with a non-nil found list
    (in particular one that holds an entity), the call returns nil and
    the found list of the merged reply is the remote finds followed by
    the cache hits. *)
Theorem lookup_merge_remote_then_cached (in_ : LookupRequest) (out : LookupResponse)
    (w : World C R) (cached : list (option bytes)) (c' : C)
    (out1 : LookupResponse) (r1 : R) (got : list EntityResult) :
  GetTransaction (LookupRequest_ReadOptions in_) = None ->
  GetMulti (cacher w) (Keys in_) = (cached, c') ->
  (length cached <= length (Keys in_))%nat ->
  length (cache_hits cached) <> length (Keys in_) ->
  invoker Lookup (with_Keys (reduced_keys (Keys in_) cached) in_) out (remote w)
  = (None, out1, r1) ->
  GetFound out1 = Some got ->
  Forall (fun v => is_Some (EntityResult_Entity v)) got ->
  let res := UnaryClientInterceptor invoker Lookup in_ out w in
  outcome_of res = Returned None
  /\ Found (reply_of res) = Some (got ++ cache_hits cached).
Proof.
  intros Htx Hget Hlen Hmiss Hinv Hfound Hent. simpl.
  unfold intercept_Lookup, getMulti, invoke.
  rewrite Htx, Hget, scan_cached_spec, drop_0 by lia. simpl.
  assert (Hne : (length (Keys in_) =? length (cache_hits cached))%nat = false)
    by (apply Nat.eqb_neq; congruence).
  rewrite Hne. fold (reduced_keys (Keys in_) cached).
  rewrite Hinv, Hfound.
  destruct (save_cache_returns got Hent [] []) as [[skeys values] Hsave].
  by rewrite Hsave.
Qed.

(** The key list of the request object after a non-transactional Lookup
    with at least one miss: the caller's on success, the reduced one
    when the remote call fails. *)
Lemma lookup_keys_after (in_ : LookupRequest) (out : LookupResponse)
    (w : World C R) (cached : list (option bytes)) (c' : C)
    (err : option error) (out1 : LookupResponse) (r1 : R) :
  GetTransaction (LookupRequest_ReadOptions in_) = None ->
  GetMulti (cacher w) (Keys in_) = (cached, c') ->
  (length cached <= length (Keys in_))%nat ->
  length (cache_hits cached) <> length (Keys in_) ->
  invoker Lookup (with_Keys (reduced_keys (Keys in_) cached) in_) out (remote w)
  = (err, out1, r1) ->
  Keys (request_of (UnaryClientInterceptor invoker Lookup in_ out w))
  = match err with
    | None => Keys in_
    | Some _ => reduced_keys (Keys in_) cached
    end.
Proof.
  intros Htx Hget Hlen Hmiss Hinv. simpl.
  unfold intercept_Lookup, getMulti, invoke.
  rewrite Htx, Hget, scan_cached_spec, drop_0 by lia. simpl.
  assert (Hne : (length (Keys in_) =? length (cache_hits cached))%nat = false)
    by (apply Nat.eqb_neq; congruence).
  rewrite Hne. fold (reduced_keys (Keys in_) cached).
  rewrite Hinv. destruct err as [e|]; [done|].
  destruct (GetFound out1) as [got|]; [|done].
  by destruct (save_cache got [] []) as [[skeys values]|].
Qed.

End cache_properties.

(** ** The caching interceptor on the examples *)

Section cache_examples.
Import example.


Lemma lookup_in_transaction_bypasses_cache_witness :
  let w := world [full 1 "v1"] [ReplayLookup (Some [full 1 "fresh"])] in
  let in_ := lookup_in_transaction [Byte.x01] [1] in
  let res := intercept Lookup in_ no_reply w in
  res = (Returned None, in_, with_Found (Some [full 1 "fresh"]) no_reply,
         mkWorld (cacher w) [] [InvokeLookup in_])
  /\ cacher_calls (events (world_of res)) = [].
Proof.
  apply (@lookup_in_transaction_bypasses_cache memory.Cache (memory_Cacher 0) codec
           _ replayer (lookup_in_transaction [Byte.x01] [1]) no_reply
           (world [full 1 "v1"] [ReplayLookup (Some [full 1 "fresh"])])
           [Byte.x01] None (with_Found (Some [full 1 "fresh"]) no_reply) []).
  - reflexivity.
  - reflexivity.
Defined.

(** C1, as stated, fails: with [k1] cached and [k2] fetched, the merged
    found list is the fetched result first and the cached one second. *)
Lemma lookup_merge_order_counterexample :
  let w := world [full 1 "v1"] [ReplayLookup (Some [full 2 "v2"])] in
  let hits := @cache_hits codec (memory.GetMulti 0 (cacher w) (Keys (lookup [1; 2]))) in
  let remote_finds := [full 2 "v2"] in
  let res := intercept Lookup (lookup [1; 2]) no_reply w in
  outcome_of res = Returned None
  /\ hits = [full 1 "v1"]
  /\ remote_calls (events (world_of res)) = [InvokeLookup (lookup [2])]
  /\ Found (reply_of res) = Some [full 2 "v2"; full 1 "v1"]
  /\ Found (reply_of res) <> Some (hits ++ remote_finds).
Proof.
  repeat split; try reflexivity.
  vm_compute. discriminate.
Qed.

Lemma lookup_merge_remote_then_cached_witness :
  let res := intercept Lookup (lookup [1; 2]) no_reply
                       (world [full 1 "v1"] [ReplayLookup (Some [full 2 "v2"])]) in
  outcome_of res = Returned None
  /\ Found (reply_of res) = Some ([full 2 "v2"] ++ [full 1 "v1"]).
Proof.
  apply (@lookup_merge_remote_then_cached memory.Cache (memory_Cacher 0) codec
           _ replayer (lookup [1; 2]) no_reply
           (world [full 1 "v1"] [ReplayLookup (Some [full 2 "v2"])])
           (memory.GetMulti 0 (cache_with [full 1 "v1"]) (Keys (lookup [1; 2])))
           (cache_with [full 1 "v1"])
           (with_Found (Some [full 2 "v2"]) no_reply) [] [full 2 "v2"]).
  - reflexivity.
  - reflexivity.
  - simpl; lia.
  - vm_compute; discriminate.
  - reflexivity.
  - reflexivity.
  - repeat constructor; by eexists.
Defined.

(** C7 at a failing input: [k1] is cached, [k2] is not, and the remote
    Lookup fails. The call returns the remote error and leaves the
    reduced key list [[k2]] on the caller's request object. *)
Theorem lookup_error_leaves_reduced_keys :
  let in_ := lookup [1; 2] in
  let res := intercept Lookup in_ no_reply
                       (world [full 1 "v1"] [ReplayError "unavailable"]) in
  outcome_of res = Returned (Some "unavailable")
  /\ Keys (request_of res) = [Some (key 2)]
  /\ Keys (request_of res) <> Keys in_.
Proof.
  repeat split; try reflexivity.
  vm_compute. discriminate.
Qed.

Lemma commit_error_skips_invalidation_witness :
  let w := world [full 1 "v1"] [ReplayError "aborted"] in
  let in_ := commit NON_TRANSACTIONAL None [mutUpdate 1 "new"] in
  let res := intercept Commit in_ no_commit_reply w in
  res = (Returned (Some "aborted"), in_, no_commit_reply,
         mkWorld (cacher w) [] [InvokeCommit in_])
  /\ cacher_calls (events (world_of res)) = [].
Proof.
  apply (@commit_error_skips_invalidation memory.Cache (memory_Cacher 0) codec
           _ replayer (commit NON_TRANSACTIONAL None [mutUpdate 1 "new"])
           no_commit_reply (world [full 1 "v1"] [ReplayError "aborted"])
           "aborted" no_commit_reply []).
  reflexivity.
Defined.

(** The commit succeeds and delete-many fails: the call fails with the
    error of delete-many. *)
Lemma commit_invalidates_mutated_keys_witness :
  let w := mkWorld (mkMock [] (Some errDelCache) [] []) [ReplayCommit 3] [] in
  let in_ := commit NON_TRANSACTIONAL None
                    [mutUpdate 1 "a"; mutInsert "b"; mutUpsert 2 "c"; mutDelete 3] in
  let keys := [Some (key 1); Some (key 2); Some (key 3)] in
  intercept_mock Commit in_ no_commit_reply w
  = (Returned (Some errDelCache), in_, mkCommitResponse 3,
     mkWorld (mkMock [] (Some errDelCache) [] keys) []
             [InvokeCommit in_; CacherDeleteMulti keys]).
Proof.
  apply (@commit_invalidates_mutated_keys mock mock_Cacher codec _ replayer
           (commit NON_TRANSACTIONAL None
                   [mutUpdate 1 "a"; mutInsert "b"; mutUpsert 2 "c"; mutDelete 3])
           no_commit_reply
           (mkWorld (mkMock [] (Some errDelCache) [] []) [ReplayCommit 3] [])
           (mkCommitResponse 3) []).
  - repeat constructor.
  - reflexivity.
Defined.

Lemma commit_invalidation_ignores_transaction_witness :
  let ms := [mutUpdate 1 "a"; mutDelete 2] in
  let keys := [Some (key 1); Some (key 2)] in
  let w := world [full 1 "v1"; full 2 "v2"] [ReplayCommit 2] in
  let res1 := intercept Commit (commit TRANSACTIONAL (Some [Byte.x2a]) ms)
                        no_commit_reply w in
  let res2 := intercept Commit (commit NON_TRANSACTIONAL None ms)
                        no_commit_reply w in
  cacher_calls (events (world_of res1)) = [CacherDeleteMulti keys]
  /\ cacher_calls (events (world_of res2)) = [CacherDeleteMulti keys]
  /\ outcome_of res1 = Returned None
  /\ outcome_of res2 = Returned None
  /\ cacher (world_of res1) = memory.NewCache 0
  /\ cacher (world_of res2) = memory.NewCache 0.
Proof.
  apply (@commit_invalidation_ignores_transaction memory.Cache (memory_Cacher 0)
           codec _ replayer
           (commit TRANSACTIONAL (Some [Byte.x2a]) [mutUpdate 1 "a"; mutDelete 2])
           (commit NON_TRANSACTIONAL None [mutUpdate 1 "a"; mutDelete 2])
           no_commit_reply no_commit_reply
           (world [full 1 "v1"; full 2 "v2"] [ReplayCommit 2])
           (world [full 1 "v1"; full 2 "v2"] [ReplayCommit 2])
           (mkCommitResponse 2) (mkCommitResponse 2) [] []);
    [reflexivity|repeat constructor|reflexivity|reflexivity].
Defined.

End cache_examples.

(** ** The query-rewriting interceptor *)

Section transform_properties.
Context {R : Type} (invoker : UnaryInvoker R) (Key_String : KeyPtr -> string).

(** The deferred [query.Projection = nil] puts the request back as the
    caller passed it. *)
Lemma restore_projection (in_ : RunQueryRequest) (query : Query) :
  GetQuery in_ = Some query -> GetProjection query = None ->
  with_Query (with_Projection None query) in_ = in_.
Proof.
  destruct in_ as [p ro [[[q|]|gql]|]], query as [pr kd lim off];
    unfold GetQuery, GetProjection, with_Query, with_Projection; simpl;
    intros Hq Hp; try discriminate.
  inversion Hq; subst. done.
Qed.

Lemma rewrite_count_mismatch
    (splice : list EntityResult -> list EntityResult -> list EntityResult
              -> option (list EntityResult))
    (in_ : RunQueryRequest) (query : Query) (out out1 : RunQueryResponse)
    (r r1 r2 : R) (getReply : LookupResponse) :
  GetQuery in_ = Some query ->
  GetProjection query = None ->
  invoker RunQuery (with_Query (with_Projection keys_only query) in_) out r
  = (None, out1, r1) ->
  GetEntityResults (Batch out1) <> [] ->
  invoker Lookup (lookup_request in_ (GetEntityResults (Batch out1)))
          empty_LookupResponse r1
  = (None, getReply, r2) ->
  slice_len (GetFound getReply) <> length (GetEntityResults (Batch out1)) ->
  QueryToLookup invoker splice RunQuery in_ out r
  = (Returned (Some errLength), in_, out1,
     (r2, [InvokeRunQuery (with_Query (with_Projection keys_only query) in_);
           InvokeLookup (lookup_request in_ (GetEntityResults (Batch out1)))])).
Proof.
  intros Hq Hp Hinv1 Hne Hinv2 Hlen. simpl.
  rewrite Hq, Hp. unfold rewrite_RunQuery.
  rewrite Hinv1.
  destruct (GetEntityResults (Batch out1)) as [|v result] eqn:Hres; [done|].
  change (length (v :: result) =? 0)%nat with false. cbv iota.
  change (lookup_request (with_Query (with_Projection keys_only query) in_)
                         (v :: result))
    with (lookup_request in_ (v :: result)).
  rewrite Hinv2.
  assert (Hneq : (length (default [] (GetFound getReply))
                  =? length (v :: result))%nat = false).
  { apply Nat.eqb_neq. by destruct (GetFound getReply). }
  rewrite Hneq. simpl. by rewrite (restore_projection _ _ Hq Hp).
Qed.

(** C9. When the keys-only query succeeds with at least one result and
    the follow-up Lookup succeeds with a number of found entities other
    than the number of keys, the call fails with an error, in both
    variants of the interceptor, and the reply object holds the keys-only
    batch exactly as the query call left it: nothing was spliced. *)
Theorem rewrite_count_mismatch_fails
    (in_ : RunQueryRequest) (query : Query) (out out1 : RunQueryResponse)
    (r r1 r2 : R) (getReply : LookupResponse) :
  GetQuery in_ = Some query ->
  GetProjection query = None ->
  invoker RunQuery (with_Query (with_Projection keys_only query) in_) out r
  = (None, out1, r1) ->
  GetEntityResults (Batch out1) <> [] ->
  invoker Lookup (lookup_request in_ (GetEntityResults (Batch out1)))
          empty_LookupResponse r1
  = (None, getReply, r2) ->
  slice_len (GetFound getReply) <> length (GetEntityResults (Batch out1)) ->
  let res := QueryToLookupWithKeysOnly invoker RunQuery in_ out r in
  let res' := QueryToLookupWithKeysOnly_keymap Key_String invoker RunQuery in_ out r in
  res = res'
  /\ outcome_of res = Returned (Some errLength)
  /\ reply_of res = out1.
Proof.
  intros Hq Hp Hinv1 Hne Hinv2 Hlen.
  unfold QueryToLookupWithKeysOnly, QueryToLookupWithKeysOnly_keymap.
  rewrite !(rewrite_count_mismatch _ _ _ _ _ _ _ _ _ Hq Hp Hinv1 Hne Hinv2 Hlen).
  done.
Qed.

(** *** The keymap variant writes each entity to the slot of its key *)

Lemma build_keymap_other (result : list EntityResult) (s : string) :
  forall (j : nat) (m : gmap string nat),
    s ∉ map (fun v => Key_String (result_key v)) result ->
    build_keymap Key_String result j m !! s = m !! s.
Proof.
  induction result as [|v result IH]; intros j m Hs; simpl in *; [done|].
  apply not_elem_of_cons in Hs as [Hne Hs].
  rewrite IH by done. by rewrite lookup_insert_ne.
Qed.

Lemma build_keymap_index (result : list EntityResult) :
  forall (j : nat) (m : gmap string nat) (i : nat) (r0 : EntityResult),
    NoDup (map (fun v => Key_String (result_key v)) result) ->
    result !! i = Some r0 ->
    build_keymap Key_String result j m !! Key_String (result_key r0) = Some (j + i)%nat.
Proof.
  induction result as [|v result IH]; intros j m i r0 Hnd Hi; [done|].
  simpl in Hnd. apply NoDup_cons in Hnd as [Hv Hnd].
  destruct i as [|i]; simpl in *.
  - inversion Hi; subst.
    rewrite build_keymap_other by done.
    rewrite lookup_insert_eq. f_equal; lia.
  - rewrite (IH _ _ _ _ Hnd Hi). f_equal; lia.
Qed.

(** The "Set results" loop of the keymap variant, for any keymap [idx]
    that stays inside [results] and sends the found entities to distinct
    slots: every found entity ends up in its slot, with the version and
    cursor the slot had, and the other slots are as before. *)
Lemma set_results_by_key_spec (keymap : gmap string nat) (found : list EntityResult) :
  let idx v := keymap_at Key_String keymap (result_key v) in
  forall results : list EntityResult,
    Forall (fun v => (idx v < length results)%nat) found ->
    NoDup (map idx found) ->
    exists results',
      set_results_by_key Key_String keymap found results = Some results'
      /\ length results' = length results
      /\ (forall i, i ∉ map idx found -> results' !! i = results !! i)
      /\ (forall v, v ∈ found ->
           exists r0, results !! idx v = Some r0
                      /\ results' !! idx v
                         = Some (with_Entity (EntityResult_Entity v) r0)).
Proof.
  intros idx. induction found as [|v found IH]; intros results Hlt Hnd.
  - exists results. split; [done|]. split; [done|]. split; [done|].
    intros v Hv. by apply elem_of_nil in Hv.
  - apply Forall_cons in Hlt as [Hv Hlt].
    simpl in Hnd. apply NoDup_cons in Hnd as [Hfresh Hnd].
    destruct (lookup_lt_is_Some_2 _ _ Hv) as [r0 Hr0].
    simpl. fold (result_key v). fold (idx v). rewrite Hr0.
    set (results1 := <[idx v := with_Entity (EntityResult_Entity v) r0]> results).
    destruct (IH results1) as (results' & Hrun & Hlen & Hframe & Hset).
    { eapply Forall_impl; [exact Hlt|]. intros v' Hv'.
      unfold results1. by rewrite length_insert. }
    { exact Hnd. }
    exists results'. split; [exact Hrun|]. split.
    { rewrite Hlen. unfold results1. by rewrite length_insert. }
    split.
    + intros i Hi. simpl in Hi. apply not_elem_of_cons in Hi as [Hne Hi].
      rewrite (Hframe i Hi). unfold results1.
      by rewrite list_lookup_insert_ne.
    + intros v' Hv'. apply elem_of_cons in Hv' as [->|Hv'].
      * exists r0. split; [exact Hr0|].
        rewrite (Hframe _ Hfresh). unfold results1.
        by rewrite list_lookup_insert_eq.
      * destruct (Hset v' Hv') as (r1 & Hr1 & Hres).
        assert (Hne : idx v <> idx v').
        { intros Heq. apply Hfresh. rewrite Heq.
          apply list_elem_of_fmap. by exists v'. }
        exists r1. split; [|exact Hres].
        unfold results1 in Hr1. by rewrite list_lookup_insert_ne in Hr1.
Qed.

(** X23. When the keys of the keys-only batch have distinct renderings,
    and the Lookup reply lists, in any order, entities with distinct keys
    that were all asked for, the keymap variant returns nil with a full
    batch in which every found entity sits in the slot that held its
    key. *)
Lemma splice_by_key_aligns
    (in_ : RunQueryRequest) (query : Query) (out out1 : RunQueryResponse)
    (r r1 r2 : R) (getReply : LookupResponse) (found : list EntityResult) :
  let result := GetEntityResults (Batch out1) in
  GetQuery in_ = Some query ->
  GetProjection query = None ->
  invoker RunQuery (with_Query (with_Projection keys_only query) in_) out r
  = (None, out1, r1) ->
  result <> [] ->
  invoker Lookup (lookup_request in_ result) empty_LookupResponse r1
  = (None, getReply, r2) ->
  GetFound getReply = Some found ->
  length found = length result ->
  NoDup (map (fun v => Key_String (result_key v)) result) ->
  NoDup (map result_key found) ->
  Forall (fun v => result_key v ∈ map result_key result) found ->
  exists results,
    QueryToLookupWithKeysOnly_keymap Key_String invoker RunQuery in_ out r
    = (Returned None, in_,
       mkRunQueryResponse (Some (mkQueryResultBatch FULL results)),
       (r2, [InvokeRunQuery (with_Query (with_Projection keys_only query) in_);
             InvokeLookup (lookup_request in_ result)]))
    /\ length results = length result
    /\ forall v, v ∈ found ->
         exists i r0, result !! i = Some r0
                      /\ result_key r0 = result_key v
                      /\ results !! i = Some (with_Entity (EntityResult_Entity v) r0).
Proof.
  intros result Hq Hp Hinv1 Hne Hinv2 Hfound Hlen Hnd Hndf Hin.
  set (keymap := build_keymap Key_String result 0 ∅).
  set (idx := fun v => keymap_at Key_String keymap (result_key v)).
  assert (Hidx : forall v, v ∈ found ->
            exists r0, result !! idx v = Some r0 /\ result_key r0 = result_key v).
  { intros v Hv. rewrite Forall_forall in Hin.
    destruct (proj1 (list_elem_of_fmap _ _ _) (Hin v Hv)) as (r0 & Hk & Hr0).
    apply list_elem_of_lookup in Hr0 as [i Hi].
    exists r0. split; [|done].
    unfold idx, keymap_at, keymap. rewrite Hk.
    by rewrite (build_keymap_index _ 0 ∅ i r0 Hnd Hi). }
  assert (Hlt : Forall (fun v => (idx v < length result)%nat) found).
  { apply Forall_forall. intros v Hv.
    destruct (Hidx v Hv) as (r0 & Hr0 & _). by eapply lookup_lt_Some. }
  assert (Hndi : NoDup (map idx found)).
  { apply (NoDup_fmap_2_strong idx); [|by eapply NoDup_fmap_1].
    intros v v' Hv Hv' Heq.
    destruct (Hidx v Hv) as (r0 & Hr0 & Hk0).
    destruct (Hidx v' Hv') as (r0' & Hr0' & Hk0').
    rewrite Heq in Hr0. rewrite Hr0' in Hr0. inversion Hr0; subst r0'.
    assert (Hkk : result_key v = result_key v') by congruence.
    clear -Hndf Hv Hv' Hkk.
    induction found as [|x found IH]; [by apply elem_of_nil in Hv|].
    simpl in Hndf. apply NoDup_cons in Hndf as [Hx Hndf].
    apply elem_of_cons in Hv as [->|Hv]; apply elem_of_cons in Hv' as [->|Hv'].
    - done.
    - exfalso. apply Hx. rewrite Hkk. apply list_elem_of_fmap. by exists v'.
    - exfalso. apply Hx. rewrite <- Hkk. apply list_elem_of_fmap. by exists v.
    - by apply IH. }
  destruct (set_results_by_key_spec keymap found result Hlt Hndi)
    as (results & Hrun & Hlenr & _ & Hset).
  exists results. split; [|split; [exact Hlenr|]].
  - unfold QueryToLookupWithKeysOnly_keymap. simpl.
    rewrite Hq, Hp. unfold rewrite_RunQuery. rewrite Hinv1.
    fold result. destruct result as [|v0 result0] eqn:Hres; [done|].
    change (length (v0 :: result0) =? 0)%nat with false. cbv iota.
    change (lookup_request (with_Query (with_Projection keys_only query) in_)
                           (v0 :: result0))
      with (lookup_request in_ (v0 :: result0)).
    rewrite Hinv2, Hfound. cbn [from_option id].
    rewrite Hlen, Nat.eqb_refl. cbn [negb].
    fold keymap. rewrite Hrun.
    by rewrite (restore_projection _ _ Hq Hp).
  - intros v Hv. destruct (Hidx v Hv) as (r0 & Hr0 & Hk0).
    destruct (Hset v Hv) as (r1' & Hr1 & Hres).
    exists (idx v), r0. split; [exact Hr0|]. split; [exact Hk0|].
    fold (idx v) in Hr1, Hres. rewrite Hr0 in Hr1. inversion Hr1; subst. exact Hres.
Qed.

End transform_properties.

(** ** The query-rewriting interceptor on the examples *)

Section transform_examples.
Import example.

Lemma rewrite_count_mismatch_fails_witness :
  let script := [ReplayRunQuery (keys_only_batch [1; 2]);
                 ReplayLookup (Some [full 1 "a"])] in
  let res := QueryToLookupWithKeysOnly replayer RunQuery (run_query query)
                                       no_query_reply script in
  let res' := QueryToLookupWithKeysOnly_keymap Key_String replayer RunQuery
                                              (run_query query) no_query_reply script in
  res = res'
  /\ outcome_of res = Returned (Some errLength)
  /\ reply_of res = mkRunQueryResponse (keys_only_batch [1; 2]).
Proof.
  apply (@rewrite_count_mismatch_fails (list Replay) replayer Key_String
           (run_query query) query no_query_reply
           (mkRunQueryResponse (keys_only_batch [1; 2]))
           [ReplayRunQuery (keys_only_batch [1; 2]); ReplayLookup (Some [full 1 "a"])]
           [ReplayLookup (Some [full 1 "a"])] []
           (with_Found (Some [full 1 "a"]) empty_LookupResponse)).
  - reflexivity.
  - reflexivity.
  - reflexivity.
  - discriminate.
  - reflexivity.
  - simpl; lia.
Defined.

(** C8 at a failing input, on [transform/transform.go]. The keys-only
    query lists the key of entity 2 and then the key of entity 1; the
    Lookup reply lists entity 1 and then entity 2. The call returns nil
    with a batch flagged full whose first slot, the slot of key 2, holds
    entity 1, and whose second slot, the slot of key 1, holds entity 2. *)
Theorem splice_by_position_misaligns :
  let script := [ReplayRunQuery (keys_only_batch [2; 1]);
                 ReplayLookup (Some [full 1 "a"; full 2 "b"])] in
  let res := QueryToLookupWithKeysOnly replayer RunQuery (run_query query)
                                       no_query_reply script in
  outcome_of res = Returned None
  /\ map result_key (GetEntityResults (keys_only_batch [2; 1]))
     = [Some (key 2); Some (key 1)]
  /\ Batch (reply_of res)
     = Some (mkQueryResultBatch FULL [full 1 "a"; full 2 "b"])
  /\ map result_key (GetEntityResults (Batch (reply_of res)))
     = [Some (key 1); Some (key 2)].
Proof. repeat split; reflexivity. Qed.

(** On the same input the keymap variant puts entity 2 in the slot of
    key 2 and entity 1 in the slot of key 1. *)
Example splice_by_key_on_the_same_input :
  let script := [ReplayRunQuery (keys_only_batch [2; 1]);
                 ReplayLookup (Some [full 1 "a"; full 2 "b"])] in
  let res := QueryToLookupWithKeysOnly_keymap Key_String replayer RunQuery
                                              (run_query query) no_query_reply script in
  outcome_of res = Returned None
  /\ Batch (reply_of res)
     = Some (mkQueryResultBatch FULL [full 2 "b"; full 1 "a"]).
Proof. split; reflexivity. Qed.

End transform_examples.

(** ** More on the lookup path of the caching interceptor *)

Section lookup_path.
Context {C : Type} `{!Cacher C} `{!Proto} {R : Type} (invoker : UnaryInvoker R).

Lemma with_Keys_same (in_ : LookupRequest) : with_Keys (Keys in_) in_ = in_.
Proof. by destruct in_. Qed.

Lemma with_Keys_twice (keys keys' : list KeyPtr) (in_ : LookupRequest) :
  with_Keys keys (with_Keys keys' in_) = with_Keys keys in_.
Proof. done. Qed.

Lemma cache_misses_missed (cached : list (option bytes)) :
  forall keys : list KeyPtr, cache_misses keys cached = missed_keys keys cached.
Proof.
  unfold missed_keys.
  induction cached as [|v cached IH]; intros [|k keys]; simpl; try done.
  rewrite IH. by destruct (is_hit v).
Qed.

Lemma save_cache_spec (got : list EntityResult) :
  Forall (fun v => is_Some (EntityResult_Entity v)) got ->
  forall skeys values,
    save_cache got skeys values
    = Some (skeys ++ map fst (saved_entries got), values ++ map snd (saved_entries got)).
Proof.
  induction 1 as [|v got [e He] _ IH]; intros skeys values; simpl.
  - by rewrite !app_nil_r.
  - unfold result_key. rewrite He. destruct (Marshal v) as [b|]; simpl.
    + rewrite IH. by rewrite <- !app_assoc.
    + apply IH.
Qed.

(** The lookup path up to the remote call: the get-many, the loop over
    its answer and the reduced request. *)
Lemma lookup_miss_path (in_ : LookupRequest) (out : LookupResponse) (w : World C R)
    (cached : list (option bytes)) (c' : C) :
  GetTransaction (LookupRequest_ReadOptions in_) = None ->
  GetMulti (cacher w) (Keys in_) = (cached, c') ->
  (length cached <= length (Keys in_))%nat ->
  length (cache_hits cached) <> length (Keys in_) ->
  UnaryClientInterceptor invoker Lookup in_ out w
  = let hits := cache_hits cached in
    let in1 := with_Keys (reduced_keys (Keys in_) cached) in_ in
    let w1 := mkWorld c' (remote w) (events w ++ [CacherGetMulti (Keys in_)]) in
    let '(err, out1, w2) := invoke invoker Lookup in1 out w1 in
    match err with
    | Some e => (Returned (Some e), in1, out1, w2)
    | None =>
      match GetFound out1 with
      | None => (Returned None, in_, with_Found (Some hits) out1, w2)
      | Some got =>
        let out2 := with_Found (Some (got ++ hits)) out1 in
        match save_cache got [] [] with
        | None => (Panicked, in_, out2, w2)
        | Some (skeys, values) => (Returned None, in_, out2, setMulti skeys values w2)
        end
      end
    end.
Proof.
  intros Htx Hget Hlen Hmiss. simpl.
  unfold intercept_Lookup, getMulti.
  rewrite Htx, Hget, scan_cached_spec, drop_0 by lia. simpl.
  assert (Hne : (length (Keys in_) =? length (cache_hits cached))%nat = false)
    by (apply Nat.eqb_neq; congruence).
  rewrite Hne. fold (reduced_keys (Keys in_) cached).
  by rewrite with_Keys_twice, with_Keys_same.
Qed.

(** X1. On a non-transactional Lookup with at least one miss whose remote
    call succeeds with a non-nil found list, the interceptor makes, in
    this order, one get-many, one remote Lookup for the reduced key list
    and one set-many; the set-many is handed exactly the remote finds that
    serialize, each under the key of its entity (the cache hits are not
    written again); the call returns nil, the request object carries the
    caller's keys again, and the reply lists the remote finds and then
    the cache hits. *)
Theorem lookup_saves_remote_finds (in_ : LookupRequest) (out : LookupResponse)
    (w : World C R) (cached : list (option bytes)) (c' : C)
    (out1 : LookupResponse) (r1 : R) (got : list EntityResult) :
  GetTransaction (LookupRequest_ReadOptions in_) = None ->
  GetMulti (cacher w) (Keys in_) = (cached, c') ->
  (length cached <= length (Keys in_))%nat ->
  length (cache_hits cached) <> length (Keys in_) ->
  invoker Lookup (with_Keys (reduced_keys (Keys in_) cached) in_) out (remote w)
  = (None, out1, r1) ->
  GetFound out1 = Some got ->
  Forall (fun v => is_Some (EntityResult_Entity v)) got ->
  UnaryClientInterceptor invoker Lookup in_ out w
  = let skeys := map fst (saved_entries got) in
    let values := map snd (saved_entries got) in
    (Returned None, in_, with_Found (Some (got ++ cache_hits cached)) out1,
     mkWorld (SetMulti c' skeys values) r1
             (events w ++ [CacherGetMulti (Keys in_);
                           InvokeLookup (with_Keys (reduced_keys (Keys in_) cached) in_);
                           CacherSetMulti skeys values])).
Proof.
  intros Htx Hget Hlen Hmiss Hinv Hfound Hent.
  rewrite (lookup_miss_path _ _ _ _ _ Htx Hget Hlen Hmiss).
  unfold invoke; simpl. rewrite Hinv, Hfound, (save_cache_spec _ Hent). simpl.
  unfold setMulti; simpl. by rewrite <- !app_assoc.
Qed.

(** X2. When the remote Lookup of the miss path succeeds and finds nothing
    (a nil found list), the call returns nil with the cache hits alone,
    the request object carries the caller's keys again, and nothing is
    written to the cache: no set-many is made and the [Cacher] is as the
    get-many left it. *)
Theorem lookup_remote_finds_nothing (in_ : LookupRequest) (out : LookupResponse)
    (w : World C R) (cached : list (option bytes)) (c' : C)
    (out1 : LookupResponse) (r1 : R) :
  GetTransaction (LookupRequest_ReadOptions in_) = None ->
  GetMulti (cacher w) (Keys in_) = (cached, c') ->
  (length cached <= length (Keys in_))%nat ->
  length (cache_hits cached) <> length (Keys in_) ->
  invoker Lookup (with_Keys (reduced_keys (Keys in_) cached) in_) out (remote w)
  = (None, out1, r1) ->
  GetFound out1 = None ->
  UnaryClientInterceptor invoker Lookup in_ out w
  = (Returned None, in_, with_Found (Some (cache_hits cached)) out1,
     mkWorld c' r1
             (events w ++ [CacherGetMulti (Keys in_);
                           InvokeLookup (with_Keys (reduced_keys (Keys in_) cached) in_)])).
Proof.
  intros Htx Hget Hlen Hmiss Hinv Hfound.
  rewrite (lookup_miss_path _ _ _ _ _ Htx Hget Hlen Hmiss).
  unfold invoke; simpl. rewrite Hinv, Hfound. by rewrite <- !app_assoc.
Qed.

(** X3. When the remote Lookup of the miss path fails, its error is what
    the call returns, the reply object is as the invoker left it, and
    nothing is written to the cache: no set-many is made and the [Cacher]
    is as the get-many left it. *)
Theorem lookup_remote_error_propagates (in_ : LookupRequest) (out : LookupResponse)
    (w : World C R) (cached : list (option bytes)) (c' : C)
    (e : error) (out1 : LookupResponse) (r1 : R) :
  GetTransaction (LookupRequest_ReadOptions in_) = None ->
  GetMulti (cacher w) (Keys in_) = (cached, c') ->
  (length cached <= length (Keys in_))%nat ->
  length (cache_hits cached) <> length (Keys in_) ->
  invoker Lookup (with_Keys (reduced_keys (Keys in_) cached) in_) out (remote w)
  = (Some e, out1, r1) ->
  let res := UnaryClientInterceptor invoker Lookup in_ out w in
  outcome_of res = Returned (Some e)
  /\ reply_of res = out1
  /\ world_of res
     = mkWorld c' r1
         (events w ++ [CacherGetMulti (Keys in_);
                       InvokeLookup (with_Keys (reduced_keys (Keys in_) cached) in_)]).
Proof.
  intros Htx Hget Hlen Hmiss Hinv res. subst res.
  rewrite (lookup_miss_path _ _ _ _ _ Htx Hget Hlen Hmiss).
  unfold invoke; simpl. rewrite Hinv. unfold outcome_of, reply_of, world_of; simpl.
  by rewrite <- !app_assoc.
Qed.

(** X4. The reduced Lookup asks for exactly the keys whose slot is empty
    or holds bytes that do not deserialize, in request order; a key whose
    slot hit is not asked for, and, when the [Cacher] answered with fewer
    slots than keys (but with at least one), neither is a key without a
    slot. *)
Theorem lookup_asks_for_missed_keys (in_ : LookupRequest) (out : LookupResponse)
    (w : World C R) (cached : list (option bytes)) (c' : C) :
  GetTransaction (LookupRequest_ReadOptions in_) = None ->
  GetMulti (cacher w) (Keys in_) = (cached, c') ->
  (length cached <= length (Keys in_))%nat ->
  length (cache_hits cached) <> length (Keys in_) ->
  cached <> [] ->
  remote_calls (events (world_of (UnaryClientInterceptor invoker Lookup in_ out w)))
  = remote_calls (events w)
    ++ [InvokeLookup (with_Keys (missed_keys (Keys in_) cached) in_)].
Proof.
  intros Htx Hget Hlen Hmiss Hne.
  rewrite (lookup_miss_path _ _ _ _ _ Htx Hget Hlen Hmiss).
  assert (Hred : reduced_keys (Keys in_) cached = missed_keys (Keys in_) cached).
  { unfold reduced_keys. destruct cached; [done|]. simpl length.
    change (S (length cached) =? 0)%nat with false. cbv iota.
    apply cache_misses_missed. }
  rewrite Hred. unfold invoke; simpl.
  destruct (invoker Lookup _ out (remote w)) as [[err out1] r1].
  assert (Hev : forall evs, remote_calls
            ((events w ++ [CacherGetMulti (Keys in_)])
               ++ [InvokeLookup (with_Keys (missed_keys (Keys in_) cached) in_)] ++ evs)
          = remote_calls (events w)
            ++ [InvokeLookup (with_Keys (missed_keys (Keys in_) cached) in_)]
            ++ remote_calls evs).
  { intros evs. unfold remote_calls. rewrite !filter_app. simpl.
    unfold filter at 2 3; simpl. by rewrite app_nil_r. }
  destruct err as [e|]; unfold world_of; simpl.
  - rewrite <- (app_nil_r [InvokeLookup _]), Hev. done.
  - destruct (GetFound out1) as [got|]; simpl.
    + destruct (save_cache got [] []) as [[skeys values]|]; simpl.
      * unfold setMulti; simpl.
        rewrite <- (app_assoc _ [InvokeLookup _]), Hev. done.
      * rewrite <- (app_nil_r [InvokeLookup _]), Hev. done.
    + rewrite <- (app_nil_r [InvokeLookup _]), Hev. done.
Qed.

(** X5. When no slot of the answer of the [Cacher] hits, whether it
    answered with nothing at all (as the Redis and memcache backends do
    when the backend fails) or with one empty or corrupt slot per key, the
    remote Lookup is made on the caller's request as it is: the whole key
    list is asked for. *)
Theorem lookup_without_hits_asks_for_all_keys (in_ : LookupRequest)
    (out : LookupResponse) (w : World C R) (cached : list (option bytes)) (c' : C) :
  GetTransaction (LookupRequest_ReadOptions in_) = None ->
  GetMulti (cacher w) (Keys in_) = (cached, c') ->
  cached = [] \/ length cached = length (Keys in_) ->
  cache_hits cached = [] ->
  Keys in_ <> [] ->
  remote_calls (events (world_of (UnaryClientInterceptor invoker Lookup in_ out w)))
  = remote_calls (events w) ++ [InvokeLookup in_].
Proof.
  intros Htx Hget Hshape Hnohit Hkeys.
  assert (Hlen : (length cached <= length (Keys in_))%nat).
  { destruct Hshape as [-> | ->]; simpl; lia. }
  assert (Hmiss : length (cache_hits cached) <> length (Keys in_)).
  { rewrite Hnohit. destruct (Keys in_); [done|]. discriminate. }
  assert (Hred : reduced_keys (Keys in_) cached = Keys in_).
  { unfold reduced_keys. destruct Hshape as [-> | Hsame]; [done|].
    destruct cached as [|v cached]; [done|]. simpl length.
    change (S (length cached) =? 0)%nat with false. cbv iota.
    clear -Hsame Hnohit. revert Hsame Hnohit. generalize (v :: cached) as cs.
    induction (Keys in_) as [|k keys IH]; intros [|c cs] Hsame Hnohit;
      simpl in *; try done.
    destruct (is_hit c); [done|]. f_equal. apply IH; [lia|done]. }
  rewrite (lookup_miss_path _ _ _ _ _ Htx Hget Hlen Hmiss).
  rewrite Hred, with_Keys_same. unfold invoke; simpl.
  destruct (invoker Lookup in_ out (remote w)) as [[err out1] r1].
  assert (Hev : forall evs, remote_calls
            ((events w ++ [CacherGetMulti (Keys in_)]) ++ [InvokeLookup in_] ++ evs)
          = remote_calls (events w) ++ [InvokeLookup in_] ++ remote_calls evs).
  { intros evs. unfold remote_calls. rewrite !filter_app. simpl.
    unfold filter at 2 3; simpl. by rewrite app_nil_r. }
  destruct err as [e|]; unfold world_of; simpl.
  - rewrite <- (app_nil_r [InvokeLookup _]), Hev. done.
  - destruct (GetFound out1) as [got|]; simpl.
    + destruct (save_cache got [] []) as [[skeys values]|]; simpl.
      * unfold setMulti; simpl.
        rewrite <- (app_assoc _ [InvokeLookup _]), Hev. done.
      * rewrite <- (app_nil_r [InvokeLookup _]), Hev. done.
    + rewrite <- (app_nil_r [InvokeLookup _]), Hev. done.
Qed.

End lookup_path.

(** ** The in-memory cache *)

Section memory_properties.

Lemma set_items_returns (exp : Z) (keys : list KeyPtr) (values : list bytes) :
  forall (i : nat) (m : gmap string memory.item),
    is_Some (memory.set_items exp keys values i m)
    <-> (length keys + i <= length values)%nat \/ keys = [].
Proof.
  induction keys as [|k keys IH]; intros i m; simpl.
  - split; [by right|by eexists].
  - destruct (values !! i) as [v|] eqn:Hv.
    + rewrite IH. apply lookup_lt_Some in Hv. split.
      * intros [Hlen | ->]; left; simpl; lia.
      * intros [Hlen | ?]; [left; lia | done].
    + apply lookup_ge_None in Hv. split.
      * by intros [? ?].
      * intros [Hlen | ?]; [lia | done].
Qed.

Lemma set_items_other (exp : Z) (keys : list KeyPtr) (values : list bytes) (s : string) :
  forall (i : nat) (m m' : gmap string memory.item),
    memory.set_items exp keys values i m = Some m' ->
    s ∉ map memory.keystr keys ->
    m' !! s = m !! s.
Proof.
  induction keys as [|k keys IH]; intros i m m' Hset Hs; simpl in *.
  - by inversion Hset.
  - apply not_elem_of_cons in Hs as [Hne Hs].
    destruct (values !! i) as [v|]; [|done].
    rewrite (IH _ _ _ Hset Hs). by rewrite lookup_insert_ne.
Qed.

Lemma set_items_at (exp : Z) (keys : list KeyPtr) (values : list bytes) :
  forall (i : nat) (m m' : gmap string memory.item) (j : nat) (k : KeyPtr) (v : bytes),
    memory.set_items exp keys values i m = Some m' ->
    NoDup (map memory.keystr keys) ->
    keys !! j = Some k ->
    values !! (i + j)%nat = Some v ->
    m' !! memory.keystr k = Some (memory.mkItem v exp).
Proof.
  induction keys as [|k0 keys IH]; intros i m m' j k v Hset Hnd Hk Hv; [done|].
  simpl in Hset, Hnd. apply NoDup_cons in Hnd as [Hfresh Hnd].
  destruct (values !! i) as [v0|] eqn:Hv0; [|done].
  destruct j as [|j]; simpl in Hk.
  - inversion Hk; subst k0. rewrite Nat.add_0_r, Hv0 in Hv. inversion Hv; subst v0.
    rewrite (set_items_other _ _ _ _ _ _ _ Hset Hfresh).
    by rewrite lookup_insert_eq.
  - eapply (IH (S i)); [exact Hset|exact Hnd|exact Hk|].
    by replace (S i + j)%nat with (i + S j)%nat by lia.
Qed.


(** The items set by the loop do not depend on the map they are added
    to: each string either gets an item fixed by the keys and values, or
    keeps what the map had. *)
Lemma set_items_overrides (exp : Z) (keys : list KeyPtr) (values : list bytes) :
  forall i : nat,
    exists g : string -> option memory.item,
      forall (m m' : gmap string memory.item),
        memory.set_items exp keys values i m = Some m' ->
        forall s, m' !! s = match g s with Some it => Some it | None => m !! s end.
Proof.
  induction keys as [|k keys IH]; intros i.
  - exists (fun _ => None). intros m m' Hset s. by inversion Hset.
  - destruct (IH (S i)) as [g Hg]. simpl.
    destruct (values !! i) as [v|] eqn:Hv.
    + exists (fun s => match g s with
                       | Some it => Some it
                       | None => if decide (memory.keystr k = s)
                                 then Some (memory.mkItem v exp) else None
                       end).
      intros m m' Hset s. rewrite (Hg _ _ Hset s).
      destruct (g s); [done|]. destruct (decide (memory.keystr k = s)) as [<-|Hne].
      * by rewrite lookup_insert_eq.
      * by rewrite lookup_insert_ne.
    + exists (fun _ => None). by intros m m' Hset.
Qed.

Lemma delete_all_lookup (keys : list KeyPtr) (s : string) :
  forall m : gmap string memory.item,
    foldl (fun m k => delete (memory.keystr k) m) m keys !! s
    = if bool_decide (s ∈ map memory.keystr keys) then None else m !! s.
Proof.
  induction keys as [|k keys IH]; intros m; [done|].
  change (foldl (fun m k => delete (memory.keystr k) m) m (k :: keys))
    with (foldl (fun m k => delete (memory.keystr k) m)
                (delete (memory.keystr k) m) keys).
  change (map memory.keystr (k :: keys))
    with (memory.keystr k :: map memory.keystr keys).
  rewrite IH. repeat case_bool_decide; try done.
  - exfalso. apply H0. by apply elem_of_cons; right.
  - apply elem_of_cons in H0 as [-> | Hin]; [|done].
    by rewrite lookup_delete_eq.
  - rewrite lookup_delete_ne; [done|].
    intros <-. apply H0. by apply elem_of_cons; left.
Qed.


(** X7. Round trip. After [SetMulti] of keys with pairwise distinct
    canonical strings, at a clock value at which the expiry it computes
    is in the range of [int64], [GetMulti] of the same keys returns the
    values, in order, for as long as the items have not expired: for
    ever when the expiration is 0, and up to [expiration] after the clock
    value of the [SetMulti] otherwise. *)
Theorem memory_GetMulti_after_SetMulti (now now' : Z) (c c' : memory.Cache)
    (keys : list KeyPtr) (values : list bytes) :
  memory.SetMulti now c keys values = Some c' ->
  NoDup (map memory.keystr keys) ->
  length keys = length values ->
  memory.exp_in_range now c ->
  memory.expiration c = 0 \/ now' <= now + memory.expiration c ->
  memory.GetMulti now' c' keys = map Some values.
Proof.
  unfold memory.SetMulti. intros Hset Hnd Hlen _ Hfresh.
  set (exp := if (memory.expiration c =? 0)%Z then 0 else now + memory.expiration c) in *.
  destruct (memory.set_items exp keys values 0 (memory.items c)) as [m|] eqn:Hm;
    [|done].
  inversion Hset; subst c'; clear Hset.
  apply list_eq. intros j. unfold memory.GetMulti.
  rewrite !list_lookup_fmap. simpl.
  destruct (keys !! j) as [k|] eqn:Hk; simpl.
  - destruct (lookup_lt_is_Some_2 values j) as [v Hv].
    { rewrite <- Hlen. by eapply lookup_lt_Some. }
    rewrite Hv; simpl.
    rewrite (set_items_at _ _ _ _ _ _ _ _ _ Hm Hnd Hk Hv). simpl.
    assert (Hok : ((memory.expiration c =? 0) || (now' <=? exp))%Z = true).
    { subst exp. destruct (Z.eqb_spec (memory.expiration c) 0) as [Hz|Hnz]; [done|].
      simpl. apply Z.leb_le. destruct Hfresh; [done|lia]. }
    by rewrite Hok.
  - apply lookup_ge_None in Hk.
    rewrite (proj2 (lookup_ge_None values j)); [done|lia].
Qed.


(** X9. [SetMulti] leaves every other slot alone: a key whose canonical
    string is not that of a key being set reads after the [SetMulti] as
    it read before. *)
Theorem memory_SetMulti_frame (now now' : Z) (c c' : memory.Cache)
    (keys : list KeyPtr) (values : list bytes) (others : list KeyPtr) :
  memory.SetMulti now c keys values = Some c' ->
  Forall (fun k => memory.keystr k ∉ map memory.keystr keys) others ->
  memory.GetMulti now' c' others = memory.GetMulti now' c others.
Proof.
  unfold memory.SetMulti. intros Hset Hothers.
  destruct (memory.set_items _ keys values 0 (memory.items c)) as [m|] eqn:Hm; [|done].
  inversion Hset; subst c'; clear Hset.
  unfold memory.GetMulti. apply map_ext_in. intros k Hk. simpl.
  apply list_elem_of_In in Hk. rewrite Forall_forall in Hothers.
  by rewrite (set_items_other _ _ _ _ _ _ _ Hm (Hothers k Hk)).
Qed.

(** X10. Setting the same keys and values a second time, at the same
    clock value, changes nothing. *)
Theorem memory_SetMulti_idempotent (now : Z) (c c1 : memory.Cache)
    (keys : list KeyPtr) (values : list bytes) :
  memory.SetMulti now c keys values = Some c1 ->
  memory.SetMulti now c1 keys values = Some c1.
Proof.
  unfold memory.SetMulti. intros Hset.
  set (exp := if (memory.expiration c =? 0)%Z then 0 else now + memory.expiration c) in *.
  destruct (memory.set_items exp keys values 0 (memory.items c)) as [m|] eqn:Hm;
    [|done].
  inversion Hset; subst c1; clear Hset. simpl. fold exp.
  destruct (set_items_overrides exp keys values 0) as [g Hg].
  destruct (proj2 (set_items_returns exp keys values 0 m)) as [m2 Hm2].
  { apply (proj1 (set_items_returns exp keys values 0 (memory.items c))).
    by eexists. }
  rewrite Hm2. do 2 f_equal. apply map_eq. intros s.
  rewrite (Hg _ _ Hm2 s), (Hg _ _ Hm s). by destruct (g s).
Qed.

(** X11. [DeleteMulti] never fails, and afterwards a key reads as nil when
    its canonical string is that of a deleted key and as it read before
    otherwise. *)
Theorem memory_GetMulti_after_DeleteMulti (now : Z) (c : memory.Cache)
    (keys others : list KeyPtr) :
  (memory.DeleteMulti c keys).1 = None
  /\ memory.GetMulti now (memory.DeleteMulti c keys).2 others
     = zip_with (fun k v => if bool_decide (memory.keystr k ∈ map memory.keystr keys)
                            then None else v)
                others (memory.GetMulti now c others).
Proof.
  split; [done|]. unfold memory.GetMulti, memory.DeleteMulti. simpl.
  induction others as [|k others IH]; simpl; [done|].
  rewrite IH, delete_all_lookup. f_equal. by destruct (bool_decide _).
Qed.

End memory_properties.

(** ** The caching interceptor over the in-memory cache *)

Section memory_interceptor.
Context `{!Proto} {R : Type} (invoker : UnaryInvoker R) (now : Z).





(** X12. Invalidation, end to end. After a successful remote Commit the
    interceptor over the in-memory cache returns nil, and afterwards a key
    reads from the cache as nil when its canonical string is that of the
    key of an Update, Upsert or Delete mutation, and as it read before
    otherwise; in particular every mutated key misses. *)
Theorem commit_empties_mutated_slots (in_ : CommitRequest) (out : CommitResponse)
    (w : World memory.Cache R) (out1 : CommitResponse) (r1 : R) :
  Forall carries_entity (Mutations in_) ->
  invoker Commit in_ out (remote w) = (None, out1, r1) ->
  let res := @UnaryClientInterceptor memory.Cache (memory_Cacher now) _ R invoker
                                     Commit in_ out w in
  let keys := mutated_keys (Mutations in_) in
  outcome_of res = Returned None
  /\ (forall (now' : Z) (others : list KeyPtr),
        memory.GetMulti now' (cacher (world_of res)) others
        = zip_with (fun k v => if bool_decide (memory.keystr k ∈ map memory.keystr keys)
                               then None else v)
                   others (memory.GetMulti now' (cacher w) others))
  /\ (forall now' : Z,
        memory.GetMulti now' (cacher (world_of res)) keys = map (fun _ => None) keys).
Proof.
  intros Hwf Hinv res keys.
  assert (Hres : outcome_of res = Returned None
                 /\ cacher (world_of res) = (memory.DeleteMulti (cacher w) keys).2).
  { subst res keys. simpl. unfold intercept_Commit, invoke, deleteMulti.
    rewrite Hinv, (mutation_keys_spec _ Hwf). simpl.
    destruct (mutated_keys (Mutations in_)) as [|k ks]; simpl; [|done].
    split; [done|]. unfold world_of, memory.DeleteMulti; simpl.
    by destruct (cacher w). }
  destruct Hres as [Hout Hc]. split; [exact Hout|].
  assert (Hread : forall (now' : Z) (others : list KeyPtr),
            memory.GetMulti now' (cacher (world_of res)) others
            = zip_with (fun k v =>
                          if bool_decide (memory.keystr k ∈ map memory.keystr keys)
                          then None else v)
                       others (memory.GetMulti now' (cacher w) others)).
  { intros now' others. rewrite Hc.
    unfold memory.GetMulti, memory.DeleteMulti. simpl.
    induction others as [|k others IH]; simpl; [done|].
    rewrite IH, delete_all_lookup. f_equal. by destruct (bool_decide _). }
  split; [exact Hread|].
  intros now'. rewrite Hread. unfold memory.GetMulti.
  rewrite zip_with_fmap_r, zip_with_diag. apply map_ext_in. intros k Hk.
  rewrite bool_decide_eq_true_2; [done|].
  apply list_elem_of_fmap. exists k. split; [done|]. by apply list_elem_of_In.
Qed.

End memory_interceptor.

Section memory_read_through.
Context `{!Proto} {R : Type} (invoker : UnaryInvoker R) (now : Z).




End memory_read_through.

(** ** More on the query-rewriting interceptor *)

Section rewrite_paths.
Context {R : Type} (invoker : UnaryInvoker R) (Key_String : KeyPtr -> string).

Local Abbreviation splice_t :=
  (list EntityResult -> list EntityResult -> list EntityResult
   -> option (list EntityResult)).

(** The rewriting path after a keys-only query that succeeded with at
    least one result. *)
Lemma rewrite_lookup_path (splice : splice_t)
    (in_ : RunQueryRequest) (query : Query) (out out1 : RunQueryResponse) (r r1 : R) :
  GetQuery in_ = Some query ->
  GetProjection query = None ->
  invoker RunQuery (with_Query (with_Projection keys_only query) in_) out r
  = (None, out1, r1) ->
  GetEntityResults (Batch out1) <> [] ->
  QueryToLookup invoker splice RunQuery in_ out r
  = let result := GetEntityResults (Batch out1) in
    let getReq := lookup_request in_ result in
    let evs := [InvokeRunQuery (with_Query (with_Projection keys_only query) in_);
                InvokeLookup getReq] in
    let '(err, getReply, r2) := invoker Lookup getReq empty_LookupResponse r1 in
    match err with
    | Some e => (Returned (Some e), in_, out1, (r2, evs))
    | None =>
      let found := default [] (GetFound getReply) in
      if negb (length found =? length result)%nat then
        (Returned (Some errLength), in_, out1, (r2, evs))
      else
        match splice result found result with
        | None => (Panicked, in_, out1, (r2, evs))
        | Some results =>
          (Returned None, in_,
           mkRunQueryResponse (Some (mkQueryResultBatch FULL results)), (r2, evs))
        end
    end.
Proof.
  intros Hq Hp Hinv1 Hne. simpl.
  rewrite Hq, Hp. unfold rewrite_RunQuery. rewrite Hinv1.
  destruct (GetEntityResults (Batch out1)) as [|v result] eqn:Hres; [done|].
  change (length (v :: result) =? 0)%nat with false. cbv iota.
  change (lookup_request (with_Query (with_Projection keys_only query) in_)
                         (v :: result))
    with (lookup_request in_ (v :: result)).
  rewrite (restore_projection _ _ Hq Hp). cbv zeta.
  by destruct (invoker Lookup _ empty_LookupResponse r1) as [[err getReply] r2].
Qed.

Lemma set_results_length (found : list EntityResult) :
  forall (i : nat) (results results' : list EntityResult),
    set_results found i results = Some results' -> length results' = length results.
Proof.
  induction found as [|v found IH]; intros i results results' Hset; simpl in Hset.
  - by inversion Hset.
  - destruct (results !! i) as [r0|]; [|done].
    rewrite (IH _ _ _ Hset). by rewrite length_insert.
Qed.

(** The "Set results" loop of [transform/transform.go]: slot [i + j] gets
    the entity of [found[j]] and keeps its version and cursor; the loop
    does not panic when the slots are there. *)
Lemma set_results_spec (found : list EntityResult) :
  forall (i : nat) (results : list EntityResult),
    (i + length found <= length results)%nat ->
    set_results found i results
    = Some (take i results
            ++ zip_with (fun v r0 => with_Entity (EntityResult_Entity v) r0)
                        found (drop i results)
            ++ drop (i + length found) results).
Proof.
  induction found as [|v found IH]; intros i results Hlen; simpl in *.
  - by rewrite Nat.add_0_r, take_drop.
  - destruct (lookup_lt_is_Some_2 results i) as [r0 Hr0]; [lia|].
    rewrite Hr0, IH by (rewrite length_insert; lia).
    rewrite (drop_S _ _ _ Hr0). simpl.
    rewrite (take_S_r (<[i:=_]> results) i (with_Entity (EntityResult_Entity v) r0))
      by (apply list_lookup_insert_eq; by eapply lookup_lt_Some).
    rewrite take_insert_ge by lia.
    rewrite !drop_insert_lt by lia.
    rewrite <- app_assoc. simpl.
    by replace (i + S (length found))%nat with (S (i + length found)) by lia.
Qed.

Lemma build_keymap_bound (result : list EntityResult) :
  forall (j : nat) (m : gmap string nat) (s : string) (n : nat),
    (forall s' n', m !! s' = Some n' -> (n' < j + length result)%nat) ->
    build_keymap Key_String result j m !! s = Some n ->
    (n < j + length result)%nat.
Proof.
  induction result as [|v result IH]; intros j m s n Hm Hs; simpl in *.
  - by eapply Hm.
  - replace (j + S (length result))%nat with (S j + length result)%nat by lia.
    eapply IH; [|exact Hs]. intros s' n' Hs'.
    destruct (decide (Key_String (GetKey (EntityResult_Entity v)) = s')) as [<-|Hne].
    + rewrite lookup_insert_eq in Hs'. inversion Hs'; subst. lia.
    + rewrite lookup_insert_ne in Hs' by done. apply Hm in Hs'. lia.
Qed.

Lemma set_results_by_key_returns (keymap : gmap string nat)
    (found : list EntityResult) :
  forall results : list EntityResult,
    (forall k, (keymap_at Key_String keymap k < length results)%nat) ->
    is_Some (set_results_by_key Key_String keymap found results).
Proof.
  induction found as [|v found IH]; intros results Hidx; simpl; [by eexists|].
  destruct (lookup_lt_is_Some_2 results _ (Hidx (GetKey (EntityResult_Entity v))))
    as [r0 Hr0].
  rewrite Hr0. apply IH. intros k. by rewrite length_insert.
Qed.

(** X14. The caller's request object is never left changed: on every
    path of both variants (forwarded, failed, empty, mismatched or
    spliced) the request is, when the call ends, as the caller passed
    it; the scratch write of the keys-only projection is always undone. *)
Theorem rewrite_restores_request (m : Method) (req : Req m) (reply : Rep m) (r : R) :
  request_of (QueryToLookupWithKeysOnly invoker m req reply r) = req
  /\ request_of (QueryToLookupWithKeysOnly_keymap Key_String invoker m req reply r) = req.
Proof.
  assert (Hgen : forall splice : splice_t,
            request_of (QueryToLookup invoker splice m req reply r) = req).
  { intros splice. destruct m; simpl; unfold pass;
      try (by destruct (invoker _ req reply r) as [[err reply'] r']).
    destruct (GetQuery req) as [query|] eqn:Hq;
      [|by destruct (invoker RunQuery req reply r) as [[err reply'] r']].
    destruct (GetProjection query) as [p|] eqn:Hp;
      [by destruct (invoker RunQuery req reply r) as [[err reply'] r']|].
    unfold rewrite_RunQuery. rewrite (restore_projection _ _ Hq Hp).
    destruct (invoker RunQuery _ reply r) as [[err out1] r1].
    destruct err as [e|]; [done|].
    destruct (length (GetEntityResults (Batch out1)) =? 0)%nat; [done|].
    destruct (invoker Lookup _ empty_LookupResponse r1) as [[err getReply] r2].
    destruct err as [e|]; [done|].
    destruct (negb _); [done|]. by destruct (splice _ _ _). }
  split; apply Hgen.
Qed.

(** X15. Neither variant indexes the results of the query out of
    range, whatever lists of results the invoker answers with: the
    position loop runs only when there are as many found entities as
    slots, and the keymap loop only reads indices the keymap holds, or 0
    for a key it does not hold, in a batch that is not empty. The lists
    here hold results, as the lists of a decoded reply do, and the
    index out of range is then the one panic of the two loops; a list
    with a nil element, which the loops would dereference, is not a
    value of the model. *)
Theorem rewrite_never_panics (m : Method) (req : Req m) (reply : Rep m) (r : R) :
  outcome_of (QueryToLookupWithKeysOnly invoker m req reply r) <> Panicked
  /\ outcome_of (QueryToLookupWithKeysOnly_keymap Key_String invoker m req reply r)
     <> Panicked.
Proof.
  assert (Hgen : forall splice : splice_t,
            (forall result found,
                result <> [] -> length found = length result ->
                is_Some (splice result found result)) ->
            outcome_of (QueryToLookup invoker splice m req reply r) <> Panicked).
  { intros splice Hsplice. destruct m; simpl; unfold pass;
      try (by destruct (invoker _ req reply r) as [[err reply'] r']).
    destruct (GetQuery req) as [query|] eqn:Hq;
      [|by destruct (invoker RunQuery req reply r) as [[err reply'] r']].
    destruct (GetProjection query) as [p|] eqn:Hp;
      [by destruct (invoker RunQuery req reply r) as [[err reply'] r']|].
    unfold rewrite_RunQuery.
    destruct (invoker RunQuery _ reply r) as [[err out1] r1].
    destruct err as [e|]; [done|].
    destruct (GetEntityResults (Batch out1)) as [|v result] eqn:Hres; [done|].
    change (length (v :: result) =? 0)%nat with false. cbv iota.
    destruct (invoker Lookup _ empty_LookupResponse r1) as [[err getReply] r2].
    destruct err as [e|]; [done|].
    destruct (length (default [] (GetFound getReply)) =? length (v :: result))%nat
      eqn:Hlen; [|done].
    apply Nat.eqb_eq in Hlen.
    destruct (Hsplice (v :: result) (default [] (GetFound getReply)))
      as [results Hresults]; [done|done|].
    simpl. by rewrite Hresults. }
  split; apply Hgen.
  - intros result found _ Hlen. rewrite set_results_spec by (simpl; lia). by eexists.
  - intros result found Hne Hlen. apply set_results_by_key_returns.
    intros k. unfold keymap_at.
    destruct (build_keymap Key_String result 0 ∅ !! Key_String k) as [n|] eqn:Hn; simpl.
    + eapply (build_keymap_bound result 0 ∅); [|exact Hn]. by intros s' n'.
    + destruct result; [done|]. simpl. lia.
Qed.

(** X16. A RunQuery that is not rewritten, because it carries a GQL
    string or no query at all or because its query already has a
    projection, is handed to the invoker as it is, once, and what the
    invoker returns is returned; no Lookup is made. *)
Theorem rewrite_skips_gql_and_projections (in_ : RunQueryRequest)
    (out : RunQueryResponse) (r : R)
    (err : option error) (out1 : RunQueryResponse) (r1 : R) :
  GetQuery in_ = None
  \/ (exists query p, GetQuery in_ = Some query /\ GetProjection query = Some p) ->
  invoker RunQuery in_ out r = (err, out1, r1) ->
  let res := QueryToLookupWithKeysOnly invoker RunQuery in_ out r in
  res = QueryToLookupWithKeysOnly_keymap Key_String invoker RunQuery in_ out r
  /\ res = (Returned err, in_, out1, (r1, [InvokeRunQuery in_])).
Proof.
  intros Hskip Hinv res. subst res.
  unfold QueryToLookupWithKeysOnly, QueryToLookupWithKeysOnly_keymap. simpl.
  destruct Hskip as [Hq | (query & p & Hq & Hp)]; rewrite Hq, ?Hp;
    unfold pass; by rewrite Hinv.
Qed.

(** X17. When the keys-only query fails, or succeeds without any result,
    the call ends there: it returns what the query returned, error or
    nil, the reply object is as the query call left it (for an empty
    result, the empty keys-only batch), and no Lookup is made. *)
Theorem rewrite_stops_after_query (in_ : RunQueryRequest) (query : Query)
    (out : RunQueryResponse) (r : R)
    (err : option error) (out1 : RunQueryResponse) (r1 : R) :
  GetQuery in_ = Some query ->
  GetProjection query = None ->
  invoker RunQuery (with_Query (with_Projection keys_only query) in_) out r
  = (err, out1, r1) ->
  is_Some err \/ GetEntityResults (Batch out1) = [] ->
  let res := QueryToLookupWithKeysOnly invoker RunQuery in_ out r in
  res = QueryToLookupWithKeysOnly_keymap Key_String invoker RunQuery in_ out r
  /\ res = (Returned err, in_, out1,
            (r1, [InvokeRunQuery (with_Query (with_Projection keys_only query) in_)])).
Proof.
  intros Hq Hp Hinv Hstop res. subst res.
  unfold QueryToLookupWithKeysOnly, QueryToLookupWithKeysOnly_keymap. simpl.
  rewrite Hq, Hp. unfold rewrite_RunQuery. rewrite Hinv, (restore_projection _ _ Hq Hp).
  destruct err as [e|]; [done|].
  destruct Hstop as [[e He] | ->]; [done|]. done.
Qed.

(** X18. When the follow-up Lookup fails, its error is what the call
    returns, in both variants, and the reply object holds the keys-only
    batch as the query call left it. The Lookup was made for the keys of
    the batch, in batch order, with the project id and the read options
    of the query request. *)
Theorem rewrite_lookup_error_propagates (in_ : RunQueryRequest) (query : Query)
    (out out1 : RunQueryResponse) (r r1 r2 : R) (e : error) (getReply : LookupResponse) :
  GetQuery in_ = Some query ->
  GetProjection query = None ->
  invoker RunQuery (with_Query (with_Projection keys_only query) in_) out r
  = (None, out1, r1) ->
  GetEntityResults (Batch out1) <> [] ->
  invoker Lookup
          (mkLookupRequest (RunQueryRequest_ProjectId in_)
                           (RunQueryRequest_ReadOptions in_)
                           (map result_key (GetEntityResults (Batch out1))))
          empty_LookupResponse r1
  = (Some e, getReply, r2) ->
  let res := QueryToLookupWithKeysOnly invoker RunQuery in_ out r in
  res = QueryToLookupWithKeysOnly_keymap Key_String invoker RunQuery in_ out r
  /\ outcome_of res = Returned (Some e)
  /\ reply_of res = out1.
Proof.
  intros Hq Hp Hinv1 Hne Hinv2 res. subst res.
  unfold QueryToLookupWithKeysOnly, QueryToLookupWithKeysOnly_keymap.
  rewrite !(rewrite_lookup_path _ _ _ _ _ _ _ Hq Hp Hinv1 Hne). cbv zeta.
  change (lookup_request in_ (GetEntityResults (Batch out1)))
    with (mkLookupRequest (RunQueryRequest_ProjectId in_)
                          (RunQueryRequest_ReadOptions in_)
                          (map result_key (GetEntityResults (Batch out1)))).
  by rewrite Hinv2.
Qed.

(** X19. On [transform/transform.go], when the Lookup succeeds with as
    many found entities as keys, the call returns nil with a batch flagged
    full that has one slot per slot of the keys-only batch: slot [i] holds
    the entity of the [i]-th found result, with the version and the cursor
    the keys-only slot had. So when the Lookup reply lists the entities in
    the order of the keys, every slot keeps its key. *)
Theorem splice_by_position_spec (in_ : RunQueryRequest) (query : Query)
    (out out1 : RunQueryResponse) (r r1 r2 : R) (getReply : LookupResponse)
    (found : list EntityResult) :
  let result := GetEntityResults (Batch out1) in
  let results := zip_with (fun v r0 => with_Entity (EntityResult_Entity v) r0)
                          found result in
  GetQuery in_ = Some query ->
  GetProjection query = None ->
  invoker RunQuery (with_Query (with_Projection keys_only query) in_) out r
  = (None, out1, r1) ->
  result <> [] ->
  invoker Lookup (lookup_request in_ result) empty_LookupResponse r1
  = (None, getReply, r2) ->
  GetFound getReply = Some found ->
  length found = length result ->
  QueryToLookupWithKeysOnly invoker RunQuery in_ out r
  = (Returned None, in_, mkRunQueryResponse (Some (mkQueryResultBatch FULL results)),
     (r2, [InvokeRunQuery (with_Query (with_Projection keys_only query) in_);
           InvokeLookup (lookup_request in_ result)]))
  /\ map Version results = map Version result
  /\ map Cursor results = map Cursor result
  /\ (map result_key found = map result_key result ->
      map result_key results = map result_key result).
Proof.
  intros result results Hq Hp Hinv1 Hne Hinv2 Hfound Hlen. split; [|split; [|split]].
  - unfold QueryToLookupWithKeysOnly.
    rewrite (rewrite_lookup_path _ _ _ _ _ _ _ Hq Hp Hinv1 Hne). cbv zeta.
    fold result. rewrite Hinv2, Hfound. cbn [from_option id].
    rewrite Hlen, Nat.eqb_refl. cbn [negb].
    rewrite set_results_spec by (simpl; lia).
    rewrite Hlen. simpl. rewrite drop_0, drop_all. by rewrite app_nil_r.
  - subst results. revert Hlen. generalize result as l. clear.
    induction found as [|v found IH]; intros [|r0 l] Hlen; simpl in *; try done.
    f_equal. apply IH. lia.
  - subst results. revert Hlen. generalize result as l. clear.
    induction found as [|v found IH]; intros [|r0 l] Hlen; simpl in *; try done.
    f_equal. apply IH. lia.
  - intros Hkeys. rewrite <- Hkeys. subst results. revert Hlen. generalize result as l.
    clear. induction found as [|v found IH]; intros [|r0 l] Hlen; simpl in *; try done.
    f_equal. apply IH. lia.
Qed.

End rewrite_paths.

(** ** The App Engine memcache backend *)

Section aememcache_properties.

(** X20. [DeleteMulti] reports a failure exactly when the service
    answered with an error that is not a multi-error, or with a
    multi-error in which at least one key failed with a server error; it
    then returns the answer as it is. A multi-error made of cache misses,
    or of any per-key errors other than the server error, is not
    reported. *)
Theorem aememcache_DeleteMulti_reports (err : option aememcache.derror) :
  (aememcache.DeleteMulti err = None
   <-> err = None
       \/ exists merr, err = Some (aememcache.MultiError merr)
                       /\ Some aememcache.ErrServerError ∉ merr)
  /\ (aememcache.DeleteMulti err <> None -> aememcache.DeleteMulti err = err).
Proof.
  assert (Hloop : forall merr,
            aememcache.has_server_error merr = false
            <-> Some aememcache.ErrServerError ∉ merr).
  { induction merr as [|e merr IH]; simpl.
    - split; [intros _; apply not_elem_of_nil|done].
    - rewrite not_elem_of_cons.
      destruct e as [[| |msg]|]; rewrite ?IH.
      + split; [intros ?; by split | by intros [_ ?]].
      + split; [done | intros [Hne _]; by destruct Hne].
      + split; [intros ?; by split | by intros [_ ?]].
      + split; [intros ?; by split | by intros [_ ?]]. }
  destruct err as [[merr|e]|]; simpl.
  - destruct (aememcache.has_server_error merr) eqn:Hs.
    + split; [|done]. split; [done|].
      intros [? | (merr' & [= <-] & Hno)]; [done|].
      apply Hloop in Hno. congruence.
    + split; [|done]. split; [|done]. intros _. right. exists merr.
      split; [done|]. by apply Hloop.
  - split; [|done]. split; [done|]. by intros [? | (merr & ? & _)].
  - split; [|done]. split; [by left|done].
Qed.

Lemma index_keys_other (keys : list KeyPtr) (s : string) :
  forall (j : nat) (m : gmap string nat),
    s ∉ map aememcache.keystr keys ->
    aememcache.index_keys keys j m !! s = m !! s.
Proof.
  induction keys as [|k keys IH]; intros j m Hs; simpl in *; [done|].
  apply not_elem_of_cons in Hs as [Hne Hs].
  rewrite IH by done. by rewrite lookup_insert_ne.
Qed.

Lemma index_keys_at (keys : list KeyPtr) :
  forall (j : nat) (m : gmap string nat) (i : nat) (k : KeyPtr),
    NoDup (map aememcache.keystr keys) ->
    keys !! i = Some k ->
    aememcache.index_keys keys j m !! aememcache.keystr k = Some (j + i)%nat.
Proof.
  induction keys as [|k0 keys IH]; intros j m i k Hnd Hi; [done|].
  simpl in Hnd. apply NoDup_cons in Hnd as [Hfresh Hnd].
  destruct i as [|i]; simpl in *.
  - inversion Hi; subst.
    rewrite index_keys_other by done.
    rewrite lookup_insert_eq. f_equal; lia.
  - rewrite (IH _ _ _ _ Hnd Hi). f_equal; lia.
Qed.

Lemma fill_spec (keys : list KeyPtr) (items : list (string * bytes)) :
  let keymap := aememcache.index_keys keys 0 ∅ in
  NoDup (map aememcache.keystr keys) ->
  NoDup (map fst items) ->
  Forall (fun kv => kv.1 ∈ map aememcache.keystr keys) items ->
  forall ret : list (option bytes),
    length ret = length keys ->
    exists ret',
      aememcache.fill keymap items ret = Some ret'
      /\ length ret' = length keys
      /\ forall (i : nat) (k : KeyPtr),
           keys !! i = Some k ->
           ret' !! i
           = match (list_to_map items : gmap string bytes) !! aememcache.keystr k with
             | Some v => Some (Some v)
             | None => ret !! i
             end.
Proof.
  intros keymap Hnd. induction items as [|[s v] items IH];
    intros Hndi Hin ret Hlen.
  - exists ret. split; [done|]. split; [done|]. intros i k Hk. simpl.
    by rewrite lookup_empty.
  - simpl in Hndi. apply NoDup_cons in Hndi as [Hfresh Hndi].
    apply Forall_cons in Hin as [Hs Hin]. simpl in Hs.
    apply list_elem_of_fmap in Hs as (k0 & -> & Hk0).
    apply list_elem_of_lookup in Hk0 as [j Hj].
    assert (Hidx : keymap !! aememcache.keystr k0 = Some j).
    { unfold keymap. by rewrite (index_keys_at keys 0 ∅ j k0 Hnd Hj). }
    assert (Hjlt : (j < length ret)%nat).
    { rewrite Hlen. by eapply lookup_lt_Some. }
    simpl. rewrite Hidx. simpl.
    destruct (Nat.ltb_spec j (length ret)) as [_|?]; [|lia].
    destruct (IH Hndi Hin (<[j := Some v]> ret)) as (ret' & Hfill & Hlen' & Hret').
    { by rewrite length_insert. }
    exists ret'. split; [exact Hfill|]. split; [exact Hlen'|].
    intros i k Hk. rewrite (Hret' i k Hk).
    destruct (decide (i = j)) as [->|Hne].
    + rewrite Hj in Hk. inversion Hk; subst k0.
      rewrite lookup_insert_eq.
      rewrite (not_elem_of_list_to_map_1 (M := gmap string)); [|done].
      by rewrite list_lookup_insert_eq.
    + assert (Hstr : aememcache.keystr k0 <> aememcache.keystr k).
      { intros Heq. apply Hne. eapply NoDup_lookup; [exact Hnd| |].
        - by rewrite list_lookup_fmap, Hk.
        - rewrite list_lookup_fmap, Hj. simpl. by rewrite Heq. }
      rewrite lookup_insert_ne by done.
      by rewrite list_lookup_insert_ne.
Qed.

(** X21. [GetMulti] returns nil when the service fails. When the service
    answers with items for keys that were asked for, and the keys have
    pairwise distinct canonical strings, [GetMulti] returns one slot per
    key, in key order, holding the value of the item of that key, or nil
    when there is none, in whatever order the map of items is ranged
    over. *)
Theorem aememcache_GetMulti_spec (keys : list KeyPtr) (items : list (string * bytes)) :
  NoDup (map aememcache.keystr keys) ->
  NoDup (map fst items) ->
  Forall (fun kv => kv.1 ∈ map aememcache.keystr keys) items ->
  aememcache.GetMulti None keys = Some []
  /\ forall items' : list (string * bytes),
       items' ≡ₚ items ->
       aememcache.GetMulti (Some items') keys
       = Some (map (fun k => (list_to_map items : gmap string bytes)
                               !! aememcache.keystr k) keys).
Proof.
  intros Hnd Hndi Hin. split; [done|]. intros items' Hperm.
  assert (Hndi' : NoDup (map fst items')) by (by rewrite Hperm).
  assert (Hin' : Forall (fun kv => kv.1 ∈ map aememcache.keystr keys) items')
    by (by rewrite Hperm).
  unfold aememcache.GetMulti.
  destruct (fill_spec keys items' Hnd Hndi' Hin' (replicate (length keys) None))
    as (ret' & Hfill & Hlen & Hret); [by rewrite length_replicate|].
  rewrite Hfill. f_equal. apply list_eq. intros i.
  rewrite list_lookup_fmap.
  destruct (keys !! i) as [k|] eqn:Hk; simpl.
  - rewrite (Hret i k Hk).
    rewrite (list_to_map_proper (M := gmap string) items' items Hndi' Hperm).
    destruct (list_to_map items !! aememcache.keystr k) as [v|]; [done|].
    apply lookup_replicate_2. by eapply lookup_lt_Some.
  - apply lookup_ge_None. rewrite Hlen. by apply lookup_ge_None.
Qed.

End aememcache_properties.

(** ** The slash-joined canonical string on keys without slashes *)

Section redis_keystr_injective.

Lemma no_slash_app (a b : string) : no_slash (a +:+ b) = no_slash a && no_slash b.
Proof.
  induction a as [|c a IH]; [done|].
  rewrite append_cons. simpl. rewrite IH. by rewrite andb_assoc.
Qed.

Lemma escape_no_slash (c : ascii) :
  negb (Ascii.eqb c "/") = true -> no_slash (strconv.escape c) = true.
Proof. destruct c as [[] [] [] [] [] [] [] []]; intros Hc; done. Qed.

Lemma Quote_no_slash (s : string) :
  no_slash s = true -> no_slash (strconv.Quote s) = true.
Proof.
  intros Hs. unfold strconv.Quote.
  change (no_slash (String strconv.dquote ?x)) with (no_slash x).
  rewrite no_slash_app. rewrite andb_true_r.
  induction s as [|c s IH]; [done|].
  simpl in Hs. apply andb_true_iff in Hs as [Hc Hs].
  simpl. rewrite no_slash_app, (escape_no_slash _ Hc). by apply IH.
Qed.

Lemma FormatInt_no_slash (z : Z) : no_slash (strconv.FormatInt z) = true.
Proof.
  assert (Hu : forall u, no_slash (NilEmpty.string_of_uint u) = true).
  { induction u; done. }
  unfold strconv.FormatInt. destruct (Z.to_int z) as [u|u]; simpl; apply Hu.
Qed.

(** Two slash-free strings followed by a slash and equal as a whole are
    equal, and so are the rests. *)
Lemma slash_split (a : string) :
  forall b x y : string,
    no_slash a = true -> no_slash b = true ->
    a +:+ String "/" x = b +:+ String "/" y -> a = b /\ x = y.
Proof.
  induction a as [|c a IH]; intros [|d b] x y Ha Hb Heq;
    rewrite ?append_nil_l, ?append_cons in Heq.
  - by injection Heq.
  - injection Heq as <- _. done.
  - injection Heq as -> _. done.
  - injection Heq as <- Heq. simpl in Ha, Hb.
    apply andb_true_iff in Ha as [_ Ha]. apply andb_true_iff in Hb as [_ Hb].
    destruct (IH _ _ _ Ha Hb Heq) as [-> ->]. done.
Qed.

Lemma slash_end (a b y : string) :
  no_slash a = true -> a <> b +:+ String "/" y.
Proof.
  intros Ha ->. rewrite no_slash_app in Ha. simpl in Ha.
  by rewrite andb_false_r in Ha.
Qed.

Lemma Join_cons2 (a b : string) (l : list string) :
  strings.Join (a :: b :: l) "/" = a +:+ String "/" (strings.Join (b :: l) "/").
Proof. done. Qed.

Lemma Join_inj (l1 : list string) :
  forall l2 : list string,
    l1 <> [] -> l2 <> [] ->
    Forall (fun s => no_slash s = true) l1 ->
    Forall (fun s => no_slash s = true) l2 ->
    strings.Join l1 "/" = strings.Join l2 "/" -> l1 = l2.
Proof.
  induction l1 as [|a l1 IH]; intros [|b l2] Hne1 Hne2 H1 H2 Heq; try done.
  apply Forall_cons in H1 as [Ha H1]. apply Forall_cons in H2 as [Hb H2].
  destruct l1 as [|a2 l1], l2 as [|b2 l2].
  - simpl in Heq. by subst.
  - rewrite Join_cons2 in Heq. simpl in Heq. by apply slash_end in Heq.
  - rewrite Join_cons2 in Heq. simpl in Heq. symmetry in Heq. by apply slash_end in Heq.
  - rewrite !Join_cons2 in Heq.
    destruct (slash_split _ _ _ _ Ha Hb Heq) as [-> Hrest].
    f_equal. by apply IH.
Qed.

Lemma segments_no_slash (path : list Key_PathElement) :
  Forall slash_free_element path ->
  Forall (fun s => no_slash s = true)
         (flat_map (fun p => Kind p :: redis.idparts (IdType p)) path).
Proof.
  induction 1 as [|p path [Hk Hid] _ IH]; simpl; [done|].
  constructor; [done|]. apply Forall_app. split; [|done].
  destruct (IdType p) as [[id|name]|]; simpl; [| |done].
  - constructor; [apply FormatInt_no_slash|done].
  - constructor; [by apply Quote_no_slash|done].
Qed.

Lemma segments_inj (p1 : list Key_PathElement) :
  forall p2 : list Key_PathElement,
    Forall slash_free_element p1 -> Forall slash_free_element p2 ->
    flat_map (fun p => Kind p :: redis.idparts (IdType p)) p1
    = flat_map (fun p => Kind p :: redis.idparts (IdType p)) p2 ->
    p1 = p2.
Proof.
  induction p1 as [|[k1 t1] p1 IH]; intros [|[k2 t2] p2] H1 H2 Heq;
    simpl in Heq; try done.
  apply Forall_cons in H1 as [[_ Ht1] H1]. apply Forall_cons in H2 as [[_ Ht2] H2].
  simpl in Ht1, Ht2.
  destruct t1 as [t1|]; [|done]. destruct t2 as [t2|]; [|done].
  assert (Hparts : forall t, redis.idparts (Some t) = [memory.idstr (Some t)])
    by (by intros []).
  rewrite !Hparts in Heq. simpl in Heq.
  injection Heq as -> Hid Hrest.
  change (memory.idstr (Some t1) = memory.idstr (Some t2)) in Hid.
  apply idstr_inj in Hid as [= ->]. f_equal. by apply IH.
Qed.

(** X22. On complete keys whose namespace, kinds and names have no slash
    (and whose namespace is not the marker of the default namespace), the
    slash-joined [keystr] is injective: two such keys have the same
    canonical string exactly when they have the same namespace and the
    same path. *)
Theorem redis_keystr_injective (k1 k2 : Key) :
  slash_free_key k1 -> slash_free_key k2 ->
  redis.keystr (Some k1) = redis.keystr (Some k2) <-> same_key k1 k2.
Proof.
  intros (Hm1 & Hn1 & Hp1) (Hm2 & Hn2 & Hp2). split.
  - unfold redis.keystr. simpl. rewrite !collect_path_segments.
    assert (Hhead : forall ns : string,
              (if String.eqb ns EmptyString then [default_namespace] else [ns])
              = [if String.eqb ns EmptyString then default_namespace else ns])
      by (intros ns; by destruct (String.eqb ns EmptyString)).
    assert (Hmark : forall ns : string,
              no_slash ns = true ->
              no_slash (if String.eqb ns EmptyString then default_namespace else ns)
              = true)
      by (intros ns Hns; destruct (String.eqb ns EmptyString); [reflexivity|done]).
    rewrite !Hhead. intros Heq.
    apply Join_inj in Heq; [|done|done| |].
    + simpl in Heq. injection Heq as Hns Hsegs. split; [|by apply segments_inj].
      destruct (String.eqb_spec (GetNamespaceId (Key_PartitionId k1)) EmptyString);
        destruct (String.eqb_spec (GetNamespaceId (Key_PartitionId k2)) EmptyString);
        congruence.
    + apply Forall_app. split; [|by apply segments_no_slash].
      constructor; [|done]. by apply Hmark.
    + apply Forall_app. split; [|by apply segments_no_slash].
      constructor; [|done]. by apply Hmark.
  - intros [Hns Hpath]. unfold redis.keystr. simpl. by rewrite Hns, Hpath.
Qed.

End redis_keystr_injective.

(** ** The further properties on the examples *)

Section more_examples.
Import example.

Local Ltac by_decision := refine (bool_decide_unpack _ _); vm_compute; exact I.

Local Ltac distinct :=
  repeat (apply NoDup_cons_2;
          [ let Hin := fresh in
            intros Hin;
            repeat (apply elem_of_cons in Hin as [Hin|Hin];
                    [vm_compute in Hin; discriminate Hin|]);
            by apply elem_of_nil in Hin
          | ]);
  apply NoDup_nil_2.

Lemma lookup_saves_remote_finds_witness :
  let in_ := lookup [1; 2] in
  let w := world [full 1 "v1"] [ReplayLookup (Some [full 2 "v2"])] in
  intercept Lookup in_ no_reply w
  = (Returned None, in_, with_Found (Some [full 2 "v2"; full 1 "v1"]) no_reply,
     mkWorld (cache_with [full 1 "v1"; full 2 "v2"]) []
             [CacherGetMulti (Keys in_); InvokeLookup (lookup [2]);
              CacherSetMulti [Some (key 2)] [[Byte.x02; Byte.x76; Byte.x32]]]).
Proof.
  apply (@lookup_saves_remote_finds memory.Cache (memory_Cacher 0) codec _ replayer
           (lookup [1; 2]) no_reply
           (world [full 1 "v1"] [ReplayLookup (Some [full 2 "v2"])])
           (memory.GetMulti 0 (cache_with [full 1 "v1"]) (Keys (lookup [1; 2])))
           (cache_with [full 1 "v1"])
           (with_Found (Some [full 2 "v2"]) no_reply) [] [full 2 "v2"]).
  - reflexivity.
  - reflexivity.
  - simpl; lia.
  - vm_compute; discriminate.
  - reflexivity.
  - reflexivity.
  - repeat constructor; by eexists.
Defined.

Lemma lookup_remote_finds_nothing_witness :
  let in_ := lookup [1; 2] in
  let w := world [full 1 "v1"] [ReplayLookup None] in
  intercept Lookup in_ no_reply w
  = (Returned None, in_, with_Found (Some [full 1 "v1"]) no_reply,
     mkWorld (cache_with [full 1 "v1"]) []
             [CacherGetMulti (Keys in_); InvokeLookup (lookup [2])]).
Proof.
  apply (@lookup_remote_finds_nothing memory.Cache (memory_Cacher 0) codec _ replayer
           (lookup [1; 2]) no_reply (world [full 1 "v1"] [ReplayLookup None])
           (memory.GetMulti 0 (cache_with [full 1 "v1"]) (Keys (lookup [1; 2])))
           (cache_with [full 1 "v1"]) no_reply []).
  - reflexivity.
  - reflexivity.
  - simpl; lia.
  - vm_compute; discriminate.
  - reflexivity.
  - reflexivity.
Defined.

Lemma lookup_remote_error_propagates_witness :
  let in_ := lookup [1; 2] in
  let w := world [full 1 "v1"] [ReplayError "unavailable"] in
  let res := intercept Lookup in_ no_reply w in
  outcome_of res = Returned (Some "unavailable")
  /\ reply_of res = no_reply
  /\ world_of res
     = mkWorld (cache_with [full 1 "v1"]) []
               [CacherGetMulti (Keys in_); InvokeLookup (lookup [2])].
Proof.
  apply (@lookup_remote_error_propagates memory.Cache (memory_Cacher 0) codec _ replayer
           (lookup [1; 2]) no_reply (world [full 1 "v1"] [ReplayError "unavailable"])
           (memory.GetMulti 0 (cache_with [full 1 "v1"]) (Keys (lookup [1; 2])))
           (cache_with [full 1 "v1"]) "unavailable" no_reply []).
  - reflexivity.
  - reflexivity.
  - simpl; lia.
  - vm_compute; discriminate.
  - reflexivity.
Defined.

(** Keys 1 and 3 are cached, the entry of key 3 is corrupt: keys 2 and 3
    are asked for. *)
Lemma lookup_asks_for_missed_keys_witness :
  let in_ := lookup [1; 2; 3] in
  let w := mkWorld (mkMock [Some [Byte.x01; Byte.x61]; None; Some []] None [] [])
                   [ReplayLookup None] [] in
  remote_calls (events (world_of (intercept_mock Lookup in_ no_reply w)))
  = [InvokeLookup (lookup [2; 3])].
Proof.
  apply (@lookup_asks_for_missed_keys mock mock_Cacher codec _ replayer
           (lookup [1; 2; 3]) no_reply
           (mkWorld (mkMock [Some [Byte.x01; Byte.x61]; None; Some []] None [] [])
                    [ReplayLookup None] [])
           [Some [Byte.x01; Byte.x61]; None; Some []]
           (mkMock [Some [Byte.x01; Byte.x61]; None; Some []] None [] [])).
  - reflexivity.
  - reflexivity.
  - simpl; lia.
  - vm_compute; discriminate.
  - discriminate.
Defined.

(** The backend is down: the [Cacher] answers with nothing. *)
Lemma lookup_without_hits_asks_for_all_keys_witness :
  let in_ := lookup [1; 2] in
  let w := mkWorld (mkMock [] None [] []) [ReplayLookup (Some [full 1 "a"])] [] in
  remote_calls (events (world_of (intercept_mock Lookup in_ no_reply w)))
  = [InvokeLookup in_].
Proof.
  apply (@lookup_without_hits_asks_for_all_keys mock mock_Cacher codec _ replayer
           (lookup [1; 2]) no_reply
           (mkWorld (mkMock [] None [] []) [ReplayLookup (Some [full 1 "a"])] [])
           [] (mkMock [] None [] [])).
  - reflexivity.
  - reflexivity.
  - by left.
  - reflexivity.
  - discriminate.
Defined.

Lemma memory_GetMulti_after_SetMulti_witness :
  let keys := [Some (key 1); Some (key 2)] in
  let values := [[Byte.x61]; [Byte.x62]] in
  memory.GetMulti 160 (cache_in 100 60 keys values) keys = map Some values.
Proof.
  apply (memory_GetMulti_after_SetMulti 100 160 (memory.NewCache 60)
           (cache_in 100 60 [Some (key 1); Some (key 2)] [[Byte.x61]; [Byte.x62]])
           [Some (key 1); Some (key 2)] [[Byte.x61]; [Byte.x62]]).
  - reflexivity.
  - by_decision.
  - reflexivity.
  - right. simpl. lia.
  - right. simpl. lia.
Defined.


Lemma memory_SetMulti_frame_witness :
  let c := cache_in 100 60 [Some (key 1)] [[Byte.x61]] in
  let c' := cache_in 100 60 [Some (key 1); Some (key 2)] [[Byte.x61]; [Byte.x62]] in
  memory.GetMulti 120 c' [Some (key 1); Some (key 3)]
  = memory.GetMulti 120 c [Some (key 1); Some (key 3)].
Proof.
  apply (memory_SetMulti_frame 100 120
           (cache_in 100 60 [Some (key 1)] [[Byte.x61]])
           (cache_in 100 60 [Some (key 1); Some (key 2)] [[Byte.x61]; [Byte.x62]])
           [Some (key 2)] [[Byte.x62]] [Some (key 1); Some (key 3)]).
  - reflexivity.
  - repeat constructor; by_decision.
Defined.

Lemma memory_SetMulti_idempotent_witness :
  let c1 := cache_in 100 60 [Some (key 1); Some (key 1)] [[Byte.x61]; [Byte.x62]] in
  memory.SetMulti 100 c1 [Some (key 1); Some (key 1)] [[Byte.x61]; [Byte.x62]]
  = Some c1.
Proof.
  apply (memory_SetMulti_idempotent 100 (memory.NewCache 60)
           (cache_in 100 60 [Some (key 1); Some (key 1)] [[Byte.x61]; [Byte.x62]])
           [Some (key 1); Some (key 1)] [[Byte.x61]; [Byte.x62]]).
  reflexivity.
Defined.

Lemma commit_empties_mutated_slots_witness :
  let w := world [full 1 "v1"; full 2 "v2"; full 3 "v3"] [ReplayCommit 2] in
  let in_ := commit TRANSACTIONAL (Some [Byte.x2a]) [mutUpdate 1 "new"; mutDelete 2] in
  let res := intercept Commit in_ no_commit_reply w in
  let keys := [Some (key 1); Some (key 2)] in
  outcome_of res = Returned None
  /\ (forall (now' : Z) (others : list KeyPtr),
        memory.GetMulti now' (cacher (world_of res)) others
        = zip_with (fun k v => if bool_decide (memory.keystr k ∈ map memory.keystr keys)
                               then None else v)
                   others (memory.GetMulti now' (cacher w) others))
  /\ (forall now' : Z,
        memory.GetMulti now' (cacher (world_of res)) keys = map (fun _ => None) keys).
Proof.
  apply (@commit_empties_mutated_slots codec _ replayer 0
           (commit TRANSACTIONAL (Some [Byte.x2a]) [mutUpdate 1 "new"; mutDelete 2])
           no_commit_reply
           (world [full 1 "v1"; full 2 "v2"; full 3 "v3"] [ReplayCommit 2])
           (mkCommitResponse 2) []).
  - repeat constructor.
  - reflexivity.
Defined.


Lemma rewrite_skips_gql_and_projections_witness :
  let in_ := run_query (mkQuery (Some [mkProjection "name"]) ["k"] None 0) in
  let script := [ReplayRunQuery (keys_only_batch [1])] in
  let res := QueryToLookupWithKeysOnly replayer RunQuery in_ no_query_reply script in
  res = QueryToLookupWithKeysOnly_keymap Key_String replayer RunQuery in_
                                         no_query_reply script
  /\ res = (Returned None, in_, mkRunQueryResponse (keys_only_batch [1]),
            ([], [InvokeRunQuery in_])).
Proof.
  apply (@rewrite_skips_gql_and_projections (list Replay) replayer Key_String
           (run_query (mkQuery (Some [mkProjection "name"]) ["k"] None 0))
           no_query_reply [ReplayRunQuery (keys_only_batch [1])]
           None (mkRunQueryResponse (keys_only_batch [1])) []).
  - right. by eexists _, _.
  - reflexivity.
Defined.

Lemma rewrite_stops_after_query_witness :
  let in_ := run_query query in
  let script := [ReplayRunQuery (keys_only_batch []); ReplayLookup None] in
  let res := QueryToLookupWithKeysOnly replayer RunQuery in_ no_query_reply script in
  res = QueryToLookupWithKeysOnly_keymap Key_String replayer RunQuery in_
                                         no_query_reply script
  /\ res = (Returned None, in_, mkRunQueryResponse (keys_only_batch []),
            ([ReplayLookup None],
             [InvokeRunQuery (with_Query (with_Projection keys_only query) in_)])).
Proof.
  apply (@rewrite_stops_after_query (list Replay) replayer Key_String
           (run_query query) query no_query_reply
           [ReplayRunQuery (keys_only_batch []); ReplayLookup None]
           None (mkRunQueryResponse (keys_only_batch [])) [ReplayLookup None]).
  - reflexivity.
  - reflexivity.
  - reflexivity.
  - by right.
Defined.

Lemma rewrite_lookup_error_propagates_witness :
  let in_ := run_query query in
  let script := [ReplayRunQuery (keys_only_batch [1; 2]); ReplayError "unavailable"] in
  let res := QueryToLookupWithKeysOnly replayer RunQuery in_ no_query_reply script in
  res = QueryToLookupWithKeysOnly_keymap Key_String replayer RunQuery in_
                                         no_query_reply script
  /\ outcome_of res = Returned (Some "unavailable")
  /\ reply_of res = mkRunQueryResponse (keys_only_batch [1; 2]).
Proof.
  apply (@rewrite_lookup_error_propagates (list Replay) replayer Key_String
           (run_query query) query no_query_reply
           (mkRunQueryResponse (keys_only_batch [1; 2]))
           [ReplayRunQuery (keys_only_batch [1; 2]); ReplayError "unavailable"]
           [ReplayError "unavailable"] [] "unavailable" empty_LookupResponse).
  - reflexivity.
  - reflexivity.
  - reflexivity.
  - discriminate.
  - reflexivity.
Defined.

Lemma splice_by_position_spec_witness :
  let in_ := run_query query in
  let script := [ReplayRunQuery (keys_only_batch [1; 2]);
                 ReplayLookup (Some [full 1 "a"; full 2 "b"])] in
  let results := [full 1 "a"; full 2 "b"] in
  QueryToLookupWithKeysOnly replayer RunQuery in_ no_query_reply script
  = (Returned None, in_, mkRunQueryResponse (Some (mkQueryResultBatch FULL results)),
     ([], [InvokeRunQuery (with_Query (with_Projection keys_only query) in_);
           InvokeLookup (lookup [1; 2])]))
  /\ map Version results = map Version (map key_only [1; 2])
  /\ map Cursor results = map Cursor (map key_only [1; 2])
  /\ (map result_key [full 1 "a"; full 2 "b"] = map result_key (map key_only [1; 2]) ->
      map result_key results = map result_key (map key_only [1; 2])).
Proof.
  apply (@splice_by_position_spec (list Replay) replayer
           (run_query query) query no_query_reply
           (mkRunQueryResponse (keys_only_batch [1; 2]))
           [ReplayRunQuery (keys_only_batch [1; 2]);
            ReplayLookup (Some [full 1 "a"; full 2 "b"])]
           [ReplayLookup (Some [full 1 "a"; full 2 "b"])] []
           (with_Found (Some [full 1 "a"; full 2 "b"]) empty_LookupResponse)
           [full 1 "a"; full 2 "b"]).
  - reflexivity.
  - reflexivity.
  - reflexivity.
  - discriminate.
  - reflexivity.
  - reflexivity.
  - reflexivity.
Defined.

Lemma splice_by_key_aligns_witness :
  let in_ := run_query query in
  let script := [ReplayRunQuery (keys_only_batch [2; 1]);
                 ReplayLookup (Some [full 1 "a"; full 2 "b"])] in
  exists results,
    QueryToLookupWithKeysOnly_keymap Key_String replayer RunQuery in_
                                     no_query_reply script
    = (Returned None, in_,
       mkRunQueryResponse (Some (mkQueryResultBatch FULL results)),
       ([], [InvokeRunQuery (with_Query (with_Projection keys_only query) in_);
             InvokeLookup (lookup_request in_ (map key_only [2; 1]))]))
    /\ length results = length (map key_only [2; 1])
    /\ forall v, v ∈ [full 1 "a"; full 2 "b"] ->
         exists i r0, map key_only [2; 1] !! i = Some r0
                      /\ result_key r0 = result_key v
                      /\ results !! i = Some (with_Entity (EntityResult_Entity v) r0).
Proof.
  apply (@splice_by_key_aligns (list Replay) replayer Key_String
           (run_query query) query no_query_reply
           (mkRunQueryResponse (keys_only_batch [2; 1]))
           [ReplayRunQuery (keys_only_batch [2; 1]);
            ReplayLookup (Some [full 1 "a"; full 2 "b"])]
           [ReplayLookup (Some [full 1 "a"; full 2 "b"])] []
           (with_Found (Some [full 1 "a"; full 2 "b"]) empty_LookupResponse)
           [full 1 "a"; full 2 "b"]).
  - reflexivity.
  - reflexivity.
  - reflexivity.
  - discriminate.
  - reflexivity.
  - reflexivity.
  - reflexivity.
  - by_decision.
  - simpl. distinct.
  - simpl. repeat constructor.
Defined.

Lemma aememcache_GetMulti_spec_witness :
  let keys := [Some (key 1); Some (key 2); Some (key 3)] in
  let items := [("[default]k3", [Byte.x63]); ("[default]k1", [Byte.x61])] in
  aememcache.GetMulti None keys = Some []
  /\ forall items' : list (string * bytes),
       items' ≡ₚ items ->
       aememcache.GetMulti (Some items') keys
       = Some (map (fun k => (list_to_map items : gmap string bytes)
                               !! aememcache.keystr k) keys).
Proof.
  apply (aememcache_GetMulti_spec
           [Some (key 1); Some (key 2); Some (key 3)]
           [("[default]k3", [Byte.x63]); ("[default]k1", [Byte.x61])]).
  - by_decision.
  - by_decision.
  - repeat constructor; by_decision.
Defined.

Lemma redis_keystr_injective_witness :
  let k1 := mkKey (Some (mkPartitionId "test" "ns"))
                  [mkPathElement "k" (Some (Key_PathElement_Id 12))] in
  let k2 := mkKey (Some (mkPartitionId "test" "ns"))
                  [mkPathElement "k1" (Some (Key_PathElement_Id 2))] in
  redis.keystr (Some k1) = redis.keystr (Some k2) <-> same_key k1 k2.
Proof.
  apply (redis_keystr_injective
           (mkKey (Some (mkPartitionId "test" "ns"))
                  [mkPathElement "k" (Some (Key_PathElement_Id 12))])
           (mkKey (Some (mkPartitionId "test" "ns"))
                  [mkPathElement "k1" (Some (Key_PathElement_Id 2))])).
  - split; [discriminate|]. split; [reflexivity|]. repeat constructor.
  - split; [discriminate|]. split; [reflexivity|]. repeat constructor.
Defined.

End more_examples.
